(* ===== verification/_CoqProject ===== *)
-Q . S2P
Prelude.v
Memory.v
Chain.v
FifoSpec.v
Fifth.v
SepLogic.v
SepSpec.v
Drop.v
Reference.v
Refinement.v
SepIter.v
Machine.v
Compose.v
Borrow.v
Examples.v
