(* ===== verification/Prelude.v ===== *)
(** * A verification of the [fifth] queue of s3thi/lists

    The program. [src/src/fifth.rs] is the whole repository. It defines
    [List<T>], a singly linked FIFO queue. The list owns a chain of
    heap-allocated nodes through [Box] links starting at [head]. It also
    keeps a raw, non-owning pointer [tail: *mut Node<T>] to the last
    node, so that [push] is O(1). Its parts:
    - data: [List] (lines 3-6), [Link] (8), [Node] (10-13);
    - the queue core: [new], [push], [pop], [peek], [peek_mut] (16-62);
    - the iterators: [into_iter], [iter], [iter_mut] (64-74), the structs
      [IntoIter], [Iter], [IterMut] (86-94), and [Iterator for IntoIter]
      (96-102), whose [next] is [pop];
    - [Drop for List] (77-84), a loop that frees the chain one node at a
      time instead of the compiler's recursive drop glue;
    - the unit test [basics] (104-135).
    The parts interact through the heap. [push] writes through [tail]
    into the node that [head]'s chain owns. [pop] frees the head node and
    must reset [tail] when the chain becomes empty. The destructor and
    [IntoIter] both consume the chain.

    The model. The heap is a finite map from locations to nodes
    ([gmap loc (Node T)], stdpp). [Box::new] allocates a fresh location.
    Moving a node out of its box frees the box. Dereferencing a freed
    location or a null pointer is a value of the [fault] type, never a
    silent success. A [&mut self] method is a function from [List T] to a
    computation of the monad [M T] (state passing over the heap, with
    faults), returning the new [List] value. An assignment to a [Link]
    place drops the old value with the drop glue, as Rust does. A
    returned reference is the location of the node it points into.

    Files (in [_CoqProject] order):
    - [Prelude] (this file): the scope [fifth_scope], the hint databases
      [fifth] (resolve) and [fifth_rw] (rewrite), the tactics [simpl_heap]
      and [invc], and shared list and option lemmas.
    - [Memory]: [Node], [Link], raw pointers [ptr], [null], [is_null],
      faults, the monad [M] with its [let*] notation and laws, and the
      primitives the code uses. [alloc] is [Box::new]. [load], [store],
      [write_next] and [write_elem] are accesses through a pointer.
      [dealloc] frees a box. [deref] is [*p] on a raw pointer. [take_next]
      is [take()] on a [next] field. [assign_next] is assignment to a
      [next] field. [drop_link] is the compiler's drop glue for
      [Option<Box<Node<T>>>], one stack frame per nesting level.
    - [Chain]: the chain of nodes reachable from a link, as an inductive
      relation [chain] (the list-segment predicate of pointer programs)
      and an executable [walk]. A link has one chain. A chain has no
      repeated node, so no cycle and one owner per node. It is no longer
      than the heap. It is framed by updates outside it, and it grows at
      its last node.
    - [FifoSpec]: the abstract contract as a type class interface.
      [FifoQueue] has the operations and [FifoLaws] the laws over an
      abstraction to the sequence of elements. Client programs are lists
      of [op]s, run by [run_ops]. [run_ops_model] is proved from the laws
      alone. The list model is the reference instance.
    - [Fifth]: [List] and every method, statement by statement. The
      invariant [is_list h self ns] says the chain from [head] is [ns] and
      [tail] is its last node, or null when it is empty. These are the
      spec's I1 and I2; I3 follows from [chain]. [repr] keeps the
      elements, and [owns] adds that the heap is exactly the chain. [abs]
      decides the invariant. The file proves each method's behaviour on
      every branch: [push] on an empty or non-empty list, [pop] on an
      empty, one-node or longer list, and [peek], [peek_mut], assignment
      through a reference. Each proof includes fault freedom and
      preservation of the invariant and of ownership.
    - [SepLogic]: a separation logic for the monad [M]. Assertions are
      heap predicates, [⋆] splits the heap into disjoint parts, [hpts]
      is one node. [triple P m Q] is a fault-avoiding triple with the
      frame built in, so the frame rule holds ([triple_frame]). The
      primitives of [Memory] have small-footprint rules.
    - [SepSpec]: the list segment [lseg] and the queue predicate
      [queue] (a segment from [head] to the last node, and the last node
      with [next = None] that [tail] points to). [push], [pop] and an
      assignment through [peek_mut] are specified as triples and
      proved with the rules, and [queue] is
      equivalent to [owns].
    - [Drop]: [drop_loop] and [List_drop] model [Drop for List], and
      [default_drop] the field drop glue that runs after it. The loop
      terminates on every heap. On an owned list it frees every node and
      leaves the empty heap, with one frame of stack.
      [IntoIter_drop] is the drop glue of [IntoIter].
    - [Reference]: the append of a list without a tail pointer,
      [push_walk], which finds the last node by following [next] from
      [head] ([find_last]). [push] computes the same list and heap on
      every valid list, so the raw [tail] shortcut is exactly an O(1)
      way to find the last node.
    - [Refinement]: [exec_ops] runs client programs on the heap
      implementation and simulates the list model, fault-free
      ([exec_ops_simulation]). [heap_fifo] with [heap_fifo_laws] makes
      the heap implementation an instance of the [FifoSpec] interface; a
      fault makes the queue value stuck ([None]), which is not well
      formed, so the laws cannot hold of code that faults.
      [drain] iterates [IntoIter]. [basics] is the unit test, with
      [assert_eq!] failing as a fault, followed by the list's destructor.
    - [SepIter]: separation-logic specifications of the consumers of
      the chain. [drop_loop] is specified by induction on the segment it
      still has to free, so [List_drop] frees exactly the queue's nodes
      in any larger heap. [drain] of [k] iterations returns the first
      [k] elements and leaves a queue of the rest, which dropping the
      iterator ([Drop.IntoIter_drop]) frees.
    - [Machine]: a client of the queue as a step relation [step] on
      states (a heap and a [List]), one rule per method run without a
      fault ([push], [pop], [peek], assignment through [peek_mut],
      [IntoIter::next]), runs [steps] with their answers, and
      [reachable] from [List::new] (stdpp's [rtc]). [model_cmd] is the
      list model of each operation, and [wf_state] the executable
      well-formedness check.
    - [Compose]: two lists sharing one heap. [exec_ops2] runs an
      interleaving of calls on either list, and [owns2] splits the heap
      into the two lists' disjoint chains. The frame lemmas say [push]
      touches only its own last node and a fresh one, and [pop] frees
      only its own head.
    - [Borrow]: the borrow rules of the spec's section 5 as an
      executable checker [check] of client programs that name the
      references [peek] and [peek_mut] return. [run_b] runs such a
      program on the heap.
    - [Examples]: each theorem with hypotheses applied to a concrete
      three-node heap or to concrete machine states, hypotheses
      discharged by evaluation.

    The theorems, by group. Behaviour of the whole program:
    [Refinement.exec_ops_from_new] (any interleaving answers like the
    list model: P3), [Refinement.push_then_pop_fifo] (P2).
    Operations: [Fifth.pop_singleton_resets_tail] (P4, I1),
    [Fifth.push_repr], [Fifth.pop_repr], [Refinement.peek_then_pop] (P5),
    [Fifth.peek_mut_assign], [Refinement.into_iter_drains] (P6 for the
    consuming iterator), [Fifth.push_pop_roundtrip] (P4 as a round
    trip). Error path: [Fifth.push_never_null_deref] (the [is_null]
    guard, on any heap). Equivalence:
    [Reference.push_walk_equiv]. The client machine, by rule induction
    on reachability: [Machine.reachable_wf] (every reachable state is
    well formed), [Machine.reachable_progress] (none is stuck),
    [Machine.steps_refine] (every run answers like the model),
    [Machine.push_eventually_popped] (liveness: a pushed element comes
    out). Composition: [Compose.two_lists_independent] (two lists in one
    heap do not interfere). Separation logic: [SepSpec.push_spec],
    [SepSpec.pop_spec], [SepSpec.peek_mut_spec] (the queue predicate is
    the invariant by [SepSpec.queue_owns]), [SepIter.List_drop_spec]
    (the destructor frees exactly its nodes beside any other heap),
    [SepIter.into_iter_take_drop]
    (iterating part of a list and dropping the iterator leaks nothing).
    Aliasing: [Borrow.check_sound] (borrow-checked
    clients never fault) and [Borrow.peek_pop_read_dangles] (the
    program the rules reject reads freed memory). Memory and termination:
    [Drop.List_drop_no_leak], [Drop.drop_loop_no_fuel_fault]. The lemma
    [Refinement.basics_passes] runs the unit test in the model.

    Bounds and fuel. [stack] is the number of drop-glue frames the stack
    holds, and [drop_link] faults with [StackOverflow] past it. Every
    assignment to a [Link] place in the code overwrites [None] on a valid
    list, so it uses no frame, and every theorem about [push] and [pop]
    holds for every [stack]. The destructor's loop gets fuel
    [S (size h)]. An iteration either frees one live node or faults, so
    the fuel never runs out on any heap ([Drop.drop_loop_no_fuel_fault]).
    [drain] gets fuel from the caller, and [into_iter_drains] holds for
    any fuel larger than the list. [walk] gets [size h] nodes, which is
    enough for every chain ([Chain.walk_size_iff]), and [find_last] gets
    the size of the heap before the allocation, which is at least the
    length of the chain it follows. In the separation-logic specs, the
    destructor's fuel is the size of the whole heap, which is at least
    the size of the part the list owns ([SepIter.triple_heap_size]).

    Not modelled: the destructor of the element type [T], which the code
    never observes, so a panicking [T] destructor during [Drop] is out of
    scope; rustc's borrow checking itself and lifetimes (the [Borrow]
    checker states the rules of the spec's section 5 for client
    programs of this list only); the Stacked Borrows aliasing model,
    under which the raw [tail] pointer of this version is undefined
    behaviour (see the findings). Stacked Borrows is an operational
    model of Miri, not code of the repository, and its retagging rules
    for [Box] are not fixed by the language, so the finding stays a
    finding: within the allocation model every access of the code is to
    a live node. [Iter] and [IterMut] are modelled as far as the code
    goes (the structs and [iter], [iter_mut]). The source never
    implements [Iterator] for them, so there is no step to advance them.
    Every line of executable code of src/src/fifth.rs is translated; what
    is left are the [impl] and [mod] braces and the [use] lines. *)

From stdpp Require Export base gmap list.

Declare Scope fifth_scope.
Delimit Scope fifth_scope with fifth.

Create HintDb fifth.
Create Rewrite HintDb fifth_rw.

(** ** Lists *)

Section ListLemmas.
Context {A : Type}.

(** A duplicate-free list whose elements all lie in a finite set is no
    longer than the set. *)
Lemma NoDup_length_le_size `{Countable A} (l : list A) (X : gset A) :
  NoDup l -> (forall x, x ∈ l -> x ∈ X) -> length l <= size X.
Proof.
  intros Hnd Hin. rewrite <- (size_list_to_set (C := gset A) l) by done.
  apply subseteq_size. intros x Hx%elem_of_list_to_set. auto.
Qed.
End ListLemmas.

#[export] Hint Rewrite @last_snoc : fifth_rw.

(** ** Options *)

Lemma option_bind_Some {A B} (o : option A) (f : A -> option B) (b : B) :
  (o ≫= f) = Some b <-> exists a, o = Some a /\ f a = Some b.
Proof. destruct o; simpl; naive_solver. Qed.

(** The development's tactics: [simpl_heap] rewrites lookups in inserted
    and deleted maps and closes membership goals; [invc] inverts a
    hypothesis and cleans up. *)
Ltac simpl_heap :=
  repeat first
    [ progress simplify_map_eq
    | rewrite lookup_insert_ne; [|congruence]
    | rewrite lookup_delete_ne; [|congruence] ].

Ltac invc H := inversion H; subst; clear H.
