(* ===== verification/Memory.v ===== *)
(** * Memory: nodes, links, raw pointers, the heap and the fault monad

    The data declarations of [src/src/fifth.rs] and the memory operations
    its code performs. A [Box<Node<T>>] is a heap location holding a
    [Node]. An [Option<Box<Node<T>>>] ([Link]) and a raw [*mut Node<T>]
    ([ptr]) are both an optional location, but they are used differently:
    a link owns its target and dropping it frees the target, while a raw
    pointer owns nothing. Computations thread the heap and may stop with
    a [fault]: a use of freed memory, a null dereference, a stack overflow
    in recursive drop glue, the fuel of a loop model running out, or a
    failed [assert_eq!]. *)

From S2P Require Import Prelude.

(** Heap addresses of [Box] allocations. *)
Abbreviation loc := positive.

(** [struct Node<T> { elem: T, next: Link<T> }] *)
Record Node (T : Type) := mkNode { elem : T; next : option loc }.
Arguments mkNode {T} _ _.
Arguments elem {T} _.
Arguments next {T} _.

(** [type Link<T> = Option<Box<Node<T>>>]: [Some l] owns the node at [l]. *)
Definition Link := option loc.

(** [*mut Node<T>]: a non-owning pointer, [null] or an address. *)
Definition ptr := option loc.

(** [ptr::null_mut()] *)
Definition null : ptr := None.

(** [<*mut T>::is_null] *)
Definition is_null (p : ptr) : bool :=
  match p with None => true | Some _ => false end.

(** The heap: every live [Box<Node<T>>] allocation and its contents. *)
Abbreviation heap T := (gmap loc (Node T)).

(** Ways a computation on the heap can go wrong. Every one but
    [OutOfFuel] and [AssertFailed] is undefined behaviour or an abort in
    the Rust program. *)
Inductive fault :=
  | UseAfterFree (l : loc)   (** access to a location that is not live *)
  | NullDeref                (** [*p] with [p] null *)
  | StackOverflow            (** recursive drop glue deeper than the stack *)
  | OutOfFuel                (** a loop model ran out of fuel *)
  | AssertFailed.            (** an [assert_eq!] of the test failed *)

#[export] Instance fault_eq_dec : EqDecision fault.
Proof. solve_decision. Defined.

(** The result of running a computation: a value and the final heap, or
    a fault. *)
Inductive outcome (T A : Type) :=
  | Ok (a : A) (h : heap T)
  | Fault (f : fault).
Arguments Ok {T A} _ _.
Arguments Fault {T A} _.

(** Computations over a heap of [Node T]: explicit state passing with
    faults. *)
Definition M (T A : Type) := heap T -> outcome T A.

Section Monad.
Context {T : Type}.

Definition ret {A} (a : A) : M T A := fun h => Ok a h.

Definition bind {A B} (m : M T A) (k : A -> M T B) : M T B :=
  fun h => match m h with Ok a h' => k a h' | Fault f => Fault f end.

Definition fail {A} (f : fault) : M T A := fun _ => Fault f.
End Monad.

Notation "'let*' x := m 'in' k" := (bind m (fun x => k))
  (at level 10, x name, m at level 100, k at level 200,
   format "'[' 'let*'  x  :=  m  'in' ']' '/' k") : fifth_scope.
Notation "'let*' ' p := m 'in' k" := (bind m (fun p => k))
  (at level 10, p pattern, m at level 100, k at level 200,
   format "'[' 'let*'  ' p  :=  m  'in' ']' '/' k") : fifth_scope.
Notation "m ;; k" := (bind m (fun _ => k))
  (at level 100, k at level 200, right associativity) : fifth_scope.

Open Scope fifth_scope.

Section Primitives.
Context {T : Type}.

(** [Box::new(n)]: a fresh allocation holding [n]. *)
Definition alloc (n : Node T) : M T loc :=
  fun h => let l := fresh (dom h) in Ok l (<[l := n]> h).

(** Reading the node at [l] (through a box, a reference or a raw
    pointer); [l] must be live. *)
Definition load (l : loc) : M T (Node T) :=
  fun h => match h !! l with
           | Some n => Ok n h
           | None => Fault (UseAfterFree l)
           end.

(** Overwriting the node at [l]; [l] must be live. *)
Definition store (l : loc) (n : Node T) : M T unit :=
  fun h => match h !! l with
           | Some _ => Ok tt (<[l := n]> h)
           | None => Fault (UseAfterFree l)
           end.

(** Freeing the box at [l]; freeing a dead location is a double free. *)
Definition dealloc (l : loc) : M T unit :=
  fun h => match h !! l with
           | Some _ => Ok tt (delete l h)
           | None => Fault (UseAfterFree l)
           end.

(** [*p] for a raw pointer: the address, or a fault if [p] is null. *)
Definition deref (p : ptr) : M T loc :=
  match p with Some l => ret l | None => fail NullDeref end.

(** Writing the [next] field of the node at [l] (no drop). *)
Definition write_next (l : loc) (lk : Link) : M T unit :=
  let* n := load l in store l (mkNode (elem n) lk).

(** Writing the [elem] field of the node at [l]. *)
Definition write_elem (l : loc) (x : T) : M T unit :=
  let* n := load l in store l (mkNode x (next n)).

(** The drop glue of [Option<Box<Node<T>>>]. Dropping [Some] box drops
    the node's fields in declaration order ([elem], whose destructor is
    not observed here, then [next], recursively) and frees the box.
    Each nested box is one more frame; [depth] is the number of frames
    the stack still has. *)
Fixpoint drop_link (depth : nat) (lk : Link) : M T unit :=
  match lk with
  | None => ret tt
  | Some l =>
      match depth with
      | O => fail StackOverflow
      | S d => let* n := load l in drop_link d (next n) ;; dealloc l
      end
  end.

(** Assignment of [lk] to the [next] field of the node at [l]: the old
    value of the place is dropped first, then the new one is written. *)
Definition assign_next (depth : nat) (l : loc) (lk : Link) : M T unit :=
  let* n := load l in drop_link depth (next n) ;; write_next l lk.

(** [take] on the [next] field of the node at [l]: the old link is
    moved out and [None] is left in its place. *)
Definition take_next (l : loc) : M T Link :=
  let* n := load l in write_next l None ;; ret (next n).
End Primitives.

(** ** Monad laws and the primitives' equations *)

Section Laws.
Context {T : Type}.
Implicit Types h : heap T.

Lemma bind_ret_l {A B} (a : A) (k : A -> M T B) h :
  (let* x := ret a in k x) h = k a h.
Proof. done. Qed.

Lemma bind_ret_r {A} (m : M T A) h : (let* x := m in ret x) h = m h.
Proof. unfold bind, ret. by destruct (m h). Qed.

Lemma bind_assoc {A B C} (m : M T A) (k : A -> M T B) (k' : B -> M T C) h :
  (let* y := (let* x := m in k x) in k' y) h
  = (let* x := m in let* y := k x in k' y) h.
Proof. unfold bind. by destruct (m h). Qed.

Lemma bind_Ok {A B} (m : M T A) (k : A -> M T B) h a h' :
  m h = Ok a h' -> (let* x := m in k x) h = k a h'.
Proof. unfold bind. by intros ->. Qed.

Lemma bind_Fault {A B} (m : M T A) (k : A -> M T B) h f :
  m h = Fault f -> (let* x := m in k x) h = Fault f.
Proof. unfold bind. by intros ->. Qed.

Lemma load_live l n h : h !! l = Some n -> load l h = Ok n h.
Proof. unfold load. by intros ->. Qed.

Lemma load_dead l h : h !! l = None -> @load T l h = Fault (UseAfterFree l).
Proof. unfold load. by intros ->. Qed.

Lemma store_live l n n' h :
  h !! l = Some n' -> store l n h = Ok tt (<[l := n]> h).
Proof. unfold store. by intros ->. Qed.

Lemma dealloc_live l n h : h !! l = Some n -> dealloc l h = Ok tt (delete l h).
Proof. unfold dealloc. by intros ->. Qed.

Lemma write_next_live l n lk h :
  h !! l = Some n -> write_next l lk h = Ok tt (<[l := mkNode (elem n) lk]> h).
Proof. intros Hl. unfold write_next. rewrite (bind_Ok _ _ _ n h); auto using load_live.
  by eapply store_live. Qed.

Lemma write_elem_live l n x h :
  h !! l = Some n -> write_elem l x h = Ok tt (<[l := mkNode x (next n)]> h).
Proof. intros Hl. unfold write_elem. rewrite (bind_Ok _ _ _ n h); auto using load_live.
  by eapply store_live. Qed.

(** Dropping [None] does nothing and uses no stack. *)
Lemma drop_link_None d h : @drop_link T d None h = Ok tt h.
Proof. by destruct d. Qed.

(** Assigning over a [None] next field is a plain write. *)
Lemma assign_next_none d l e lk h :
  h !! l = Some (mkNode e None) ->
  assign_next d l lk h = Ok tt (<[l := mkNode e lk]> h).
Proof.
  intros Hl. unfold assign_next. rewrite (bind_Ok _ _ _ _ h (load_live _ _ _ Hl)).
  rewrite (bind_Ok _ _ _ tt h (drop_link_None d h)).
  by rewrite (write_next_live _ _ _ _ Hl).
Qed.
End Laws.

#[export] Hint Rewrite @bind_ret_l @bind_ret_r @bind_assoc @drop_link_None : fifth_rw.
#[export] Hint Resolve load_live store_live dealloc_live write_next_live : fifth.

(** ** Computations that never dereference null

    [no_null m] says [m] stops with [NullDeref] on no heap. It is closed
    under [bind], and every primitive but [deref] has it. So a computation
    can dereference null only through a [deref] of a null pointer. *)

Section NoNull.
Context {T : Type}.

Definition no_null {A} (m : M T A) : Prop := forall h, m h <> Fault NullDeref.

Lemma no_null_ret {A} (a : A) : no_null (@ret T A a).
Proof. by intros h. Qed.

Lemma no_null_bind {A B} (m : M T A) (k : A -> M T B) :
  no_null m -> (forall a, no_null (k a)) -> no_null (let* x := m in k x).
Proof.
  intros Hm Hk h. unfold bind. destruct (m h) eqn:E; [apply Hk|].
  intros Heq. injection Heq as ->. by apply (Hm h).
Qed.

Lemma no_null_alloc n : no_null (@alloc T n).
Proof. by intros h. Qed.

Lemma no_null_load l : no_null (@load T l).
Proof. intros h. unfold load. by destruct (h !! l). Qed.

Lemma no_null_store l n : no_null (@store T l n).
Proof. intros h. unfold store. by destruct (h !! l). Qed.

Lemma no_null_dealloc l : no_null (@dealloc T l).
Proof. intros h. unfold dealloc. by destruct (h !! l). Qed.

Lemma no_null_deref_Some l : no_null (@deref T (Some l)).
Proof. by intros h. Qed.

Lemma no_null_write_next l lk : no_null (@write_next T l lk).
Proof. apply no_null_bind; [apply no_null_load|intros; apply no_null_store]. Qed.

Lemma no_null_drop_link d lk : no_null (@drop_link T d lk).
Proof.
  revert lk. induction d as [|d IH]; intros [l|] h; simpl; try done.
  revert h. apply no_null_bind; [apply no_null_load|].
  intros n. apply no_null_bind; [apply IH|intros; apply no_null_dealloc].
Qed.

Lemma no_null_assign_next d l lk : no_null (@assign_next T d l lk).
Proof.
  apply no_null_bind; [apply no_null_load|intros n].
  apply no_null_bind; [apply no_null_drop_link|intros; apply no_null_write_next].
Qed.
End NoNull.

#[export] Hint Resolve no_null_ret no_null_alloc no_null_load no_null_store
  no_null_dealloc no_null_deref_Some no_null_write_next no_null_drop_link
  no_null_assign_next : fifth.
