(* ===== verification/Chain.v ===== *)
(** * Chain: the nodes reachable from a link

    [chain h lk ns] holds when following [next] links from [lk] in the heap
    [h] visits the nodes listed in [ns] (location and element, in order)
    and ends at [None]. It is the list-segment predicate of pointer
    programs, here over a finite-map heap. [walk] computes the same thing
    with fuel. The lemmas: a link has one chain; a chain visits no node
    twice (so it has no cycle, and each node has one owner); it fits in the
    heap; updates to locations outside a chain do not affect it; and the
    chain grows at its last node when that node's link is set. *)

From S2P Require Import Prelude Memory.

Section Chain.
Context {T : Type}.
Implicit Types (h : heap T) (lk : Link) (ns : list (loc * T)).

Inductive chain h : Link -> list (loc * T) -> Prop :=
  | chain_nil : chain h None []
  | chain_cons l n ns :
      h !! l = Some n -> chain h (next n) ns ->
      chain h (Some l) ((l, elem n) :: ns).

(** The executable traversal: at most [fuel] nodes, [None] when a link
    is dangling or the fuel is too small. *)
Fixpoint walk (fuel : nat) h lk : option (list (loc * T)) :=
  match lk with
  | None => Some []
  | Some l =>
      match fuel with
      | O => None
      | S f => n ← h !! l; ns ← walk f h (next n); Some ((l, elem n) :: ns)
      end
  end.

Lemma chain_functional h lk ns1 ns2 :
  chain h lk ns1 -> chain h lk ns2 -> ns1 = ns2.
Proof.
  intros H1. revert ns2. induction H1 as [|l n ns Hl Hc IH]; intros ns2 H2;
    invc H2; [done|]. simplify_eq. f_equal. auto.
Qed.

(** A suffix of a chain that starts at a node is a chain from it. *)
Lemma chain_app_inv h lk ns1 l x ns2 :
  chain h lk (ns1 ++ (l, x) :: ns2) -> chain h (Some l) ((l, x) :: ns2).
Proof.
  revert lk. induction ns1 as [|[l1 x1] ns1 IH]; intros lk Hc.
  - inversion Hc; subst. exact Hc.
  - invc Hc. eauto.
Qed.

(** No node is visited twice: the chain is acyclic. *)
Lemma chain_NoDup h lk ns : chain h lk ns -> NoDup ns.*1.
Proof.
  induction 1 as [|l n ns Hl Hc IH]; simpl; constructor; [|done].
  intros ([l' y] & Heq & Hin)%list_elem_of_fmap_1. simpl in Heq; subst l'.
  destruct (list_elem_of_split _ _ Hin) as (ns1 & ns2 & ->).
  pose proof (chain_app_inv _ _ _ _ _ _ Hc) as Hsuf.
  assert (Hfull : chain h (Some l) ((l, elem n) :: ns1 ++ (l, y) :: ns2))
    by (econstructor; eauto).
  pose proof (chain_functional _ _ _ _ Hfull Hsuf) as Heq.
  apply (f_equal length) in Heq. simpl in Heq. rewrite length_app in Heq. simpl in Heq. lia.
Qed.

Lemma chain_lookup h lk ns l x :
  chain h lk ns -> (l, x) ∈ ns -> exists nx, h !! l = Some (mkNode x nx).
Proof.
  induction 1 as [|l' [x' nx'] ns Hl Hc IH]; [set_solver|].
  rewrite elem_of_cons. intros [[= -> ->]|Hin]; eauto.
Qed.

Lemma chain_in_dom h lk ns l : chain h lk ns -> l ∈ ns.*1 -> l ∈ dom h.
Proof.
  intros Hc ([l' x] & -> & Hin)%list_elem_of_fmap_1.
  destruct (chain_lookup _ _ _ _ _ Hc Hin) as [nx Hl].
  apply elem_of_dom. eauto.
Qed.

(** A chain is no longer than the heap. *)
Lemma chain_length_le h lk ns : chain h lk ns -> length ns <= size h.
Proof.
  intros Hc. rewrite <- length_fmap with (f := fst), <- (size_dom h).
  apply NoDup_length_le_size; eauto using chain_NoDup, chain_in_dom.
Qed.

Lemma walk_complete fuel h lk ns :
  chain h lk ns -> length ns <= fuel -> walk fuel h lk = Some ns.
Proof.
  intros Hc. revert fuel. induction Hc as [|l n ns Hl Hc IH];
    intros [|f] Hf; simpl in *; try done; [lia|].
  rewrite Hl. simpl. rewrite IH; [done|lia].
Qed.

Lemma walk_sound fuel h lk ns : walk fuel h lk = Some ns -> chain h lk ns.
Proof.
  revert lk ns. induction fuel as [|f IH]; intros [l|] ns Hw; simpl in Hw;
    simplify_eq; try constructor.
  destruct (h !! l) as [n|] eqn:Hl; simplify_eq/=.
  destruct (walk f h (next n)) as [ns'|] eqn:Hw'; simplify_eq/=.
  constructor; auto.
Qed.

(** With as much fuel as the heap has nodes, [walk] decides [chain]. *)
Lemma walk_size_iff h lk ns : walk (size h) h lk = Some ns <-> chain h lk ns.
Proof.
  split; [apply walk_sound|]. intros Hc.
  apply walk_complete; [done|]. by apply (chain_length_le _ lk).
Qed.

(** Frame: a chain only depends on the heap at its own nodes. *)
Lemma chain_frame h h' lk ns :
  chain h lk ns -> (forall l, l ∈ ns.*1 -> h' !! l = h !! l) -> chain h' lk ns.
Proof.
  induction 1 as [|l n ns Hl Hc IH]; intros Hagree; constructor.
  - rewrite Hagree; [done|set_solver].
  - apply IH. intros l' Hl'. apply Hagree. set_solver.
Qed.

Lemma chain_insert_other h lk ns l n :
  chain h lk ns -> l ∉ ns.*1 -> chain (<[l := n]> h) lk ns.
Proof.
  intros Hc Hl. apply (chain_frame _ _ _ _ Hc). intros l' Hl'.
  apply lookup_insert_ne. set_solver.
Qed.

(** A chain stays a chain in a larger heap. *)
Lemma chain_weaken h h' lk ns : chain h lk ns -> h ⊆ h' -> chain h' lk ns.
Proof.
  intros Hc Hsub. apply (chain_frame _ _ _ _ Hc). intros l Hl.
  destruct (elem_of_dom h l) as [[n Hn] _]; [by eapply chain_in_dom|].
  rewrite Hn. by eapply lookup_weaken.
Qed.

Lemma chain_delete_other h lk ns l :
  chain h lk ns -> l ∉ ns.*1 -> chain (delete l h) lk ns.
Proof.
  intros Hc Hl. apply (chain_frame _ _ _ _ Hc). intros l' Hl'.
  apply lookup_delete_ne. set_solver.
Qed.

(** The last node of a chain has no successor. *)
Lemma chain_last_next h lk ns t :
  chain h lk ns -> last ns.*1 = Some t ->
  exists y, h !! t = Some (mkNode y None) /\ last ns.*2 = Some y.
Proof.
  induction 1 as [|l [y nx] ns Hl Hc IH]; [done|]. simpl in *.
  destruct ns as [|[l' x'] ns].
  - intros [= ->]. invc Hc. eauto.
  - auto.
Qed.

(** Linking a fresh node [l] after the last node [t] extends the chain. *)
Lemma chain_snoc h lk ns t y l x :
  chain h lk ns -> last ns.*1 = Some t -> h !! t = Some (mkNode y None) ->
  h !! l = None ->
  chain (<[t := mkNode y (Some l)]> (<[l := mkNode x None]> h)) lk
        (ns ++ [(l, x)]).
Proof.
  intros Hc. pose proof (chain_NoDup _ _ _ Hc) as Hnd. revert Hnd.
  induction Hc as [|l0 n ns Hl0 Hc IH]; intros Hnd Hlast Ht Hl; [done|].
  assert (l0 ≠ l) by congruence.
  destruct ns as [|[l1 x1] ns]; simpl in *.
  - injection Hlast as <-. rewrite Hl0 in Ht. injection Ht as ->. simpl.
    apply (chain_cons _ _ (mkNode y (Some l))); [by simplify_map_eq|].
    apply (chain_cons _ _ (mkNode x None)); [by simplify_map_eq|].
    constructor.
  - assert (l0 ≠ t).
    { intros ->. apply NoDup_cons in Hnd as [Hnin _]. apply Hnin.
      by apply last_Some_elem_of. }
    econstructor; [by simpl_heap|].
    apply IH; auto. by apply NoDup_cons in Hnd as [_ ?].
Qed.
End Chain.

#[export] Hint Constructors chain : fifth.
#[export] Hint Resolve chain_NoDup chain_insert_other chain_delete_other : fifth.
