(* ===== verification/FifoSpec.v ===== *)
(** * FifoSpec: the contract of a FIFO queue

    The interface the spec (sections 4.1 and 8) gives the queue, as a type
    class. [FifoQueue] has the operations: [new], [push], [pop] (which
    returns the element and the new queue) and [peek]. [FifoLaws] has the
    contract. It is stated through an abstraction [fq_contents] to the
    sequence of elements, under a well-formedness predicate [fq_wf] that
    every operation preserves. Client programs are sequences of [op]s.
    [run_ops] runs one against any instance, and [model_ops] runs it on the
    plain list model. The theorems in this file use the laws only, so they
    hold for every implementation that discharges them. The heap
    implementation does so in [Refinement]. *)

From S2P Require Import Prelude.

Class FifoQueue (Q T : Type) := {
  fq_new : Q;
  fq_push : T -> Q -> Q;
  fq_pop : Q -> option T * Q;
  fq_peek : Q -> option T;
}.

Class FifoLaws (Q T : Type) `{!FifoQueue Q T} := {
  fq_wf : Q -> Prop;
  fq_contents : Q -> list T;
  fq_new_wf : fq_wf fq_new;
  fq_new_contents : fq_contents fq_new = [];
  fq_push_wf x q : fq_wf q -> fq_wf (fq_push x q);
  fq_push_contents x q : fq_wf q -> fq_contents (fq_push x q) = fq_contents q ++ [x];
  fq_pop_wf q : fq_wf q -> fq_wf (fq_pop q).2;
  fq_pop_result q : fq_wf q -> (fq_pop q).1 = hd_error (fq_contents q);
  fq_pop_contents q : fq_wf q -> fq_contents (fq_pop q).2 = tl (fq_contents q);
  fq_peek_result q : fq_wf q -> fq_peek q = hd_error (fq_contents q);
}.

(** A client's call, as in the spec's interleaving property P3. *)
Inductive op (T : Type) := Push (x : T) | Pop | Peek.
Arguments Push {T} _.
Arguments Pop {T}.
Arguments Peek {T}.

(** Running a client program: the answers of its [Pop] and [Peek] calls,
    in order, and the final queue. *)
Fixpoint run_ops {Q T} `{!FifoQueue Q T} (ops : list (op T)) (q : Q)
    : list (option T) * Q :=
  match ops with
  | [] => ([], q)
  | Push x :: ops => run_ops ops (fq_push x q)
  | Pop :: ops =>
      let '(r, q') := fq_pop q in
      let '(rs, q'') := run_ops ops q' in (r :: rs, q'')
  | Peek :: ops =>
      let '(rs, q') := run_ops ops q in (fq_peek q :: rs, q')
  end.

(** The reference model: a queue is the list of its elements. *)
#[export] Instance list_fifo {T} : FifoQueue (list T) T := {
  fq_new := [];
  fq_push x xs := xs ++ [x];
  fq_pop xs := (hd_error xs, tl xs);
  fq_peek xs := hd_error xs;
}.

#[export] Instance list_fifo_laws {T} : FifoLaws (list T) T.
Proof. refine {| fq_wf _ := True; fq_contents xs := xs |}; done. Defined.

Definition model_ops {T} (ops : list (op T)) (xs : list T) : list (option T) * list T :=
  run_ops ops xs.

(** The canonical regression scenario of the spec, the trace of the unit
    test [basics] (src/src/fifth.rs, lines 108-135). *)
Definition basics_ops : list (op nat) :=
  [Pop; Push 1; Push 2; Push 3; Pop; Pop; Push 4; Push 5; Pop; Pop; Pop; Pop;
   Push 6; Push 7; Pop; Pop; Pop].

Definition basics_answers : list (option nat) :=
  [None; Some 1; Some 2; Some 3; Some 4; Some 5; None; Some 6; Some 7; None].

Section Client.
Context {Q T : Type} `{!FifoQueue Q T} `{!FifoLaws Q T}.

Lemma fq_pop_eq q :
  fq_wf q ->
  fq_pop q = (hd_error (fq_contents q), (fq_pop q).2) /\
  fq_wf (fq_pop q).2 /\ fq_contents (fq_pop q).2 = tl (fq_contents q).
Proof.
  intros Hq. pose proof (fq_pop_result q Hq). pose proof (fq_pop_wf q Hq).
  pose proof (fq_pop_contents q Hq). destruct (fq_pop q); simpl in *; subst; auto.
Qed.

(** Observational refinement of the list model: any interleaving of
    calls on a well-formed queue answers as the list model does on the
    queue's contents, and leaves a well-formed queue with the model's
    final contents. *)
Lemma run_ops_model ops q :
  fq_wf q ->
  (run_ops ops q).1 = (model_ops ops (fq_contents q)).1 /\
  fq_wf (run_ops ops q).2 /\
  fq_contents (run_ops ops q).2 = (model_ops ops (fq_contents q)).2.
Proof.
  unfold model_ops. revert q.
  induction ops as [|[x| |] ops IH]; intros q Hq; simpl.
  - auto.
  - rewrite <- fq_push_contents by done. apply IH. by apply fq_push_wf.
  - destruct (fq_pop_eq q Hq) as (Heq & Hwf & Hc). rewrite Heq. simpl.
    destruct (IH _ Hwf) as (H1 & H2 & H3). rewrite Hc in H1, H3.
    destruct (run_ops ops (fq_pop q).2) as [rs q'] eqn:E1.
    destruct (run_ops ops (tl (fq_contents q))) as [rs' q''] eqn:E2.
    simpl in *. subst. auto.
  - destruct (IH _ Hq) as (H1 & H2 & H3).
    destruct (run_ops ops q) as [rs q'] eqn:E1.
    destruct (run_ops ops (fq_contents q)) as [rs' q''] eqn:E2.
    simpl in *. subst. rewrite fq_peek_result; auto.
Qed.
End Client.

Section Model.
Context {T : Type}.

Lemma model_ops_pushes (xs ys : list T) ops :
  model_ops (map Push xs ++ ops) ys = model_ops ops (ys ++ xs).
Proof.
  unfold model_ops. revert ys.
  induction xs as [|x xs IH]; intros ys; simpl.
  - by rewrite app_nil_r.
  - rewrite IH. by rewrite <- app_assoc.
Qed.

Lemma model_ops_pops (xs : list T) :
  model_ops (replicate (length xs) Pop) xs = (map Some xs, []).
Proof.
  unfold model_ops. induction xs as [|x xs IH]; simpl; [done|].
  fold (model_ops (replicate (length xs) (@Pop T)) xs). unfold model_ops in *.
  by rewrite IH.
Qed.
End Model.
