(* ===== verification/Fifth.v ===== *)
(** * Fifth: [List<T>] of src/src/fifth.rs and its methods

    The struct [List] is a record of its two fields. Each method is one
    definition and follows the source statement by statement. [take()]
    leaves [None] in the place. An assignment to a [Link] place drops the
    old value ([set_head], [Memory.assign_next]). Moving a node out of its
    box frees the box. A [&self] or [&mut self] method that returns a
    reference returns the location of the node the reference points into.
    [stack] is the number of drop-glue frames available. It matters only
    when an assignment overwrites a [Some] link, which never happens on a
    valid list.

    The invariant: [is_list h self ns] says the chain from [head] in [h]
    is [ns], and [tail] is the location of its last node, or null when it
    is empty (I1, I2). The chain is acyclic and duplicate-free (I3) by
    [Chain.chain_NoDup]. [repr] forgets the locations and keeps the
    elements. [owns] adds that the heap holds exactly the chain's nodes.
    [abs] computes the contents and decides the invariant. The last
    section covers the error path of [push]: it never dereferences null,
    on any heap. *)

From S2P Require Import Prelude Memory Chain.

(** [pub struct List<T> { head: Link<T>, tail: *mut Node<T> }] *)
Record List (T : Type) := mkList { head : Link; tail : ptr }.
Arguments mkList {T} _ _.
Arguments head {T} _.
Arguments tail {T} _.

(** [pub struct IntoIter<T>(List<T>)] *)
Record IntoIter (T : Type) := MkIntoIter { into_list : List T }.
Arguments MkIntoIter {T} _.
Arguments into_list {T} _.

(** [pub struct Iter<'a, T> { next: Option<&'a Node<T>> }] *)
Record Iter := MkIter { iter_next : option loc }.

(** [pub struct IterMut<'a, T> { next: Option<&'a mut Node<T>> }] *)
Record IterMut := MkIterMut { iter_mut_next : option loc }.

(** A [&T] or [&mut T] to the [elem] field of the node at a location. *)
Definition ElemRef := loc.

(** [Option::is_none] on a link. *)
Definition is_none (lk : Link) : bool :=
  match lk with None => true | Some _ => false end.

Section List.
Context {T : Type} (stack : nat).
Implicit Types (h : heap T) (self : List T).

(** [List::new] *)
Definition new : List T := mkList None null.

(** The assignment [self.head = lk]: the old link is dropped. *)
Definition set_head self (lk : Link) : M T (List T) :=
  drop_link stack (head self) ;; ret (mkList lk (tail self)).

(** [List::push] *)
Definition push (x : T) self : M T (List T) :=
  let* new_tail := alloc (mkNode x None) in
  let raw_tail : ptr := Some new_tail in
  let* self :=
    if negb (is_null (tail self)) then
      let* t := deref (tail self) in
      assign_next stack t (Some new_tail) ;; ret self
    else set_head self (Some new_tail) in
  ret (mkList (head self) raw_tail).

(** [List::pop] *)
Definition pop self : M T (option T * List T) :=
  let taken := head self in
  let self := mkList None (tail self) in
  match taken with
  | None => ret (None, self)
  | Some l =>
      let* node := load l in
      dealloc l ;;
      let* self := set_head self (next node) in
      let self := if is_none (head self) then mkList (head self) null else self in
      ret (Some (elem node), self)
  end.

(** [List::peek]: a shared reference to the head element. *)
Definition peek self : option ElemRef :=
  match head self with Some l => Some l | None => None end.

(** [List::peek_mut]: an exclusive reference to the head element. *)
Definition peek_mut self : option ElemRef :=
  match head self with Some l => Some l | None => None end.

(** Reading through a reference returned by [peek] or [peek_mut]. *)
Definition read_ref (r : ElemRef) : M T T :=
  let* n := load r in ret (elem n).

(** Assigning [*r = x] through a reference returned by [peek_mut]. *)
Definition assign_ref (r : ElemRef) (x : T) : M T unit := write_elem r x.

(** [List::into_iter] *)
Definition into_iter self : IntoIter T := MkIntoIter self.

(** [List::iter] *)
Definition iter self : Iter := MkIter (head self).

(** [List::iter_mut] *)
Definition iter_mut self : IterMut := MkIterMut (head self).

(** [<IntoIter<T> as Iterator>::next] *)
Definition into_iter_next (it : IntoIter T) : M T (option T * IntoIter T) :=
  let* '(r, q) := pop (into_list it) in ret (r, MkIntoIter q).

(** ** The representation invariant *)

Definition is_list h self (ns : list (loc * T)) : Prop :=
  chain h (head self) ns /\ tail self = last ns.*1.

Definition repr h self (xs : list T) : Prop :=
  exists ns, is_list h self ns /\ ns.*2 = xs.

(** The list owns every node of the heap and nothing else is there. *)
Definition owns h self (xs : list T) : Prop :=
  exists ns, is_list h self ns /\ ns.*2 = xs /\ dom h = list_to_set ns.*1.

(** The contents, when the invariant holds. *)
Definition abs h self : option (list T) :=
  ns ← walk (size h) h (head self);
  if decide (tail self = last ns.*1) then Some ns.*2 else None.
End List.

(** ** Lemmas on the invariant *)

Section Invariant.
Context {T : Type}.
Implicit Types (h : heap T) (self : List T) (ns : list (loc * T)).

Lemma is_list_nil h self : is_list h self [] <-> head self = None /\ tail self = None.
Proof.
  unfold is_list. split; [intros [Hc ->]; by invc Hc|].
  intros [-> ->]. split; [constructor|done].
Qed.

(** [abs] decides the invariant and computes the contents. *)
Lemma abs_repr h self xs : abs h self = Some xs <-> repr h self xs.
Proof.
  unfold abs, repr, is_list. split.
  - intros (ns & Hw & Hd)%option_bind_Some. case_decide; simplify_eq.
    exists ns. rewrite <- walk_size_iff. auto.
  - intros (ns & [Hc Ht] & <-). apply walk_size_iff in Hc. rewrite Hc. simpl.
    by rewrite decide_True.
Qed.

(** A computable criterion for [is_list], used to discharge it on
    concrete heaps. *)
Lemma is_list_walk h self ns :
  walk (size h) h (head self) = Some ns -> tail self = last ns.*1 -> is_list h self ns.
Proof. intros Hw Ht. split; [by apply walk_size_iff|done]. Qed.

Lemma fresh_not_live h : h !! fresh (dom h) = None.
Proof. apply not_elem_of_dom, is_fresh. Qed.

Lemma set_head_empty stack self lk h :
  head self = None -> set_head stack self lk h = Ok (mkList lk (tail self)) h.
Proof. intros Hh. unfold set_head. rewrite Hh. by rewrite (bind_Ok _ _ _ tt h (drop_link_None _ _)). Qed.
End Invariant.

#[export] Hint Resolve fresh_not_live : fifth.

(** ** [push] *)

Section Push.
Context {T : Type} (stack : nat).
Implicit Types (h : heap T) (self : List T) (ns : list (loc * T)).

(** Pushing onto an empty list: the new node is the head and the tail. *)
Lemma push_empty h self x :
  is_list h self [] ->
  let l := fresh (dom h) in
  push stack x self h = Ok (mkList (Some l) (Some l)) (<[l := mkNode x None]> h).
Proof.
  intros [Hh Ht]%is_list_nil l.
  unfold push. rewrite (bind_Ok _ _ _ l (<[l := mkNode x None]> h)) by done.
  rewrite Ht. cbn [negb is_null].
  rewrite (bind_Ok _ _ _ _ _ (set_head_empty _ _ _ _ Hh)). done.
Qed.

(** Pushing onto a non-empty list: the old last node, found through the
    raw [tail] pointer, is linked to the new node, which becomes the
    tail; [head] is unchanged. *)
Lemma push_nonempty h self ns x :
  is_list h self ns -> ns <> [] ->
  let l := fresh (dom h) in
  exists t y,
    tail self = Some t /\ h !! t = Some (mkNode y None) /\
    push stack x self h =
      Ok (mkList (head self) (Some l))
         (<[t := mkNode y (Some l)]> (<[l := mkNode x None]> h)).
Proof.
  intros [Hc Ht] Hne l.
  destruct (last ns.*1) as [t|] eqn:Hlast;
    [|apply last_None, fmap_nil_inv in Hlast; done].
  destruct (chain_last_next _ _ _ _ Hc Hlast) as (y & Hty & _).
  exists t, y. split_and!; [congruence|done|].
  assert (h !! l = None) by apply fresh_not_live.
  assert (t ≠ l) by congruence.
  unfold push. rewrite (bind_Ok _ _ _ l (<[l := mkNode x None]> h)) by done.
  rewrite Ht. cbn [negb is_null deref].
  rewrite !bind_assoc, bind_ret_l, bind_assoc.
  rewrite (bind_Ok _ _ _ tt _ (assign_next_none stack t y (Some l) (<[l := mkNode x None]> h)
    ltac:(by simpl_heap))).
  by rewrite bind_ret_l.
Qed.

(** [push] keeps the invariant, appends the element at the new fresh
    location, and allocates exactly that location. *)
Lemma push_is_list h self ns x :
  is_list h self ns ->
  let l := fresh (dom h) in
  exists self' h',
    push stack x self h = Ok self' h' /\
    is_list h' self' (ns ++ [(l, x)]) /\ dom h' = {[l]} ∪ dom h.
Proof.
  intros Hl l. destruct (decide (ns = [])) as [->|Hne].
  - eexists _, _. split; [by apply push_empty|]. split.
    + split; [|done]. simpl.
      apply (chain_cons _ _ (mkNode x None)); [by simplify_map_eq|].
      simpl. apply chain_nil.
    + by rewrite dom_insert_L.
  - destruct (push_nonempty _ _ _ x Hl Hne) as (t & y & Ht & Hty & ->).
    eexists _, _. split; [done|]. destruct Hl as [Hc Ht'].
    assert (t ∈ dom h) by (apply elem_of_dom; eauto).
    split; [split|].
    + apply (chain_snoc _ _ _ t); [done|congruence|done|apply fresh_not_live].
    + simpl. rewrite fmap_app. simpl. by rewrite last_snoc.
    + rewrite !dom_insert_L. set_solver.
Qed.
End Push.

(** ** [pop] *)

Section Pop.
Context {T : Type} (stack : nat).
Implicit Types (h : heap T) (self : List T) (ns : list (loc * T)).

(** Popping an empty list returns nothing and changes nothing. *)
Lemma pop_empty h self :
  is_list h self [] -> pop stack self h = Ok (None, self) h.
Proof. intros [Hh Ht]%is_list_nil. destruct self as [hd tl]. simpl in *. by subst. Qed.

(** Popping a non-empty list frees the head node, returns its element,
    and leaves a valid list of the remaining nodes; when that list is
    empty, the [tail] pointer has been reset to null. *)
Lemma pop_cons h self l x ns :
  is_list h self ((l, x) :: ns) ->
  exists self',
    pop stack self h = Ok (Some x, self') (delete l h) /\
    is_list (delete l h) self' ns.
Proof.
  intros [Hc Ht]. pose proof (chain_NoDup _ _ _ Hc) as Hnd.
  apply NoDup_cons in Hnd as [Hnin _].
  invc Hc. destruct self as [hd tl]. simpl in *. subst hd.
  unfold pop. cbn [head tail].
  rewrite (bind_Ok _ _ _ n h (load_live _ _ _ H2)).
  rewrite (bind_Ok _ _ _ tt _ (dealloc_live _ _ _ H2)).
  rewrite (bind_Ok _ _ _ _ _ (set_head_empty stack (mkList None tl) (next n) _ eq_refl)).
  eexists. split; [reflexivity|].
  split; cbn [head tail is_none]; destruct ns as [|[l1 x1] ns]; invc H4;
    simpl in *; auto using chain_delete_other with fifth.
Qed.

(** C3: Popping the only node of a list frees it, returns its element and
    resets both [head] and the raw [tail] pointer: the list is [new]
    again (I1 after the last pop, the spec's P4). *)
Theorem pop_singleton_resets_tail h self l x :
  is_list h self [(l, x)] -> pop stack self h = Ok (Some x, new) (delete l h).
Proof.
  intros [Hc Ht]. inversion Hc as [|l' n ns Hl Hnil Hhd Hx]; subst.
  inversion Hnil as [Hnx|]. destruct self as [hd tl]. simpl in *. subst.
  unfold pop. cbn [head tail].
  rewrite (bind_Ok _ _ _ n h (load_live _ _ _ Hl)).
  rewrite (bind_Ok _ _ _ tt _ (dealloc_live _ _ _ Hl)).
  rewrite (bind_Ok _ _ _ _ _ (set_head_empty stack (mkList None (Some l)) (next n) _ eq_refl)).
  by rewrite <- Hnx.
Qed.

(** Reading through the reference [peek] returns gives the first
    element, and the heap is unchanged. *)
Lemma peek_read h self xs :
  repr h self xs ->
  (match peek self with
   | None => ret None
   | Some r => let* v := read_ref r in ret (Some v)
   end) h = Ok (hd_error xs) h.
Proof.
  intros (ns & [Hc _] & <-). unfold peek.
  destruct Hc as [|l n ns Hl Hc]; [done|].
  unfold read_ref. rewrite bind_assoc, (bind_Ok _ _ _ n h (load_live _ _ _ Hl)). done.
Qed.

(** Assigning through a reference to the head node's element replaces
    that element and nothing else. *)
Lemma assign_ref_head h self l x ns y :
  is_list h self ((l, x) :: ns) ->
  exists h', assign_ref l y h = Ok tt h' /\
             is_list h' self ((l, y) :: ns) /\ dom h' = dom h.
Proof.
  intros [Hc Ht]. pose proof (chain_NoDup _ _ _ Hc) as Hnd.
  apply NoDup_cons in Hnd as [Hnin _].
  inversion Hc as [|l' n ns' Hl Hc' Hhd Hns]; subst.
  eexists. split; [by apply write_elem_live|]. split; [split|].
  - rewrite <- Hhd. apply (chain_cons _ _ (mkNode y (next n))); [by simplify_map_eq|].
    by apply chain_insert_other.
  - done.
  - rewrite dom_insert_L. apply elem_of_dom_2 in Hl. set_solver.
Qed.

(** [peek_mut] on a non-empty list is a reference to its head node. *)
Lemma peek_mut_head self h l x ns :
  is_list h self ((l, x) :: ns) -> peek_mut self = Some l.
Proof.
  intros [Hc _]. inversion Hc as [|l' n ns' Hl Hc' Hhd]; subst.
  unfold peek_mut. by rewrite <- Hhd.
Qed.

(** C9: [peek_mut] gives a reference to the head node's element; assigning
    through it replaces that element and nothing else. *)
Theorem peek_mut_assign h self l x ns y :
  is_list h self ((l, x) :: ns) ->
  peek_mut self = Some l /\
  exists h', assign_ref l y h = Ok tt h' /\
             is_list h' self ((l, y) :: ns) /\ dom h' = dom h.
Proof. intros Hl. split; [by eapply peek_mut_head|by eapply assign_ref_head]. Qed.
End Pop.

(** ** The contents and the owned footprint *)

Section Contents.
Context {T : Type} (stack : nat).
Implicit Types (h : heap T) (self : List T) (xs : list T).

Lemma new_owns : owns (∅ : heap T) new [].
Proof. exists []. split_and!; [by apply is_list_nil|done|by rewrite dom_empty_L]. Qed.

Lemma push_owns h self xs x :
  owns h self xs ->
  exists self' h', push stack x self h = Ok self' h' /\ owns h' self' (xs ++ [x]).
Proof.
  intros (ns & Hl & <- & Hdom).
  destruct (push_is_list stack h self ns x Hl) as (self' & h' & Hp & Hl' & Hd).
  exists self', h'. split; [done|]. exists (ns ++ [(fresh (dom h), x)]).
  split_and!; [done|by rewrite fmap_app|].
  rewrite Hd, Hdom, fmap_app, list_to_set_app_L. simpl. set_solver.
Qed.

Lemma pop_owns h self xs :
  owns h self xs ->
  exists self' h', pop stack self h = Ok (hd_error xs, self') h' /\ owns h' self' (tl xs).
Proof.
  intros (ns & Hl & <- & Hdom). destruct ns as [|[l x] ns].
  - exists self, h. split; [by apply pop_empty|]. exists []. auto.
  - destruct (pop_cons stack h self l x ns Hl) as (self' & Hp & Hl').
    exists self', (delete l h). split; [done|]. exists ns. split_and!; [done|done|].
    pose proof (chain_NoDup _ _ _ (proj1 Hl)) as Hnd. apply NoDup_cons in Hnd as [Hnin _].
    rewrite dom_delete_L, Hdom. simpl. set_solver.
Qed.

(** C4: [push] never faults on a valid list and appends its element to
    the contents. *)
Theorem push_repr h self xs x :
  repr h self xs ->
  exists self' h', push stack x self h = Ok self' h' /\ repr h' self' (xs ++ [x]).
Proof.
  intros (ns & Hl & <-).
  destruct (push_is_list stack h self ns x Hl) as (self' & h' & Hp & Hl' & _).
  exists self', h'. split; [done|]. exists (ns ++ [(fresh (dom h), x)]).
  split; [done|by rewrite fmap_app].
Qed.

(** C5: [pop] never faults on a valid list; it returns the first element
    (nothing on an empty list) and leaves the rest of the contents. *)
Theorem pop_repr h self xs :
  repr h self xs ->
  exists self' h', pop stack self h = Ok (hd_error xs, self') h' /\ repr h' self' (tl xs).
Proof.
  intros (ns & Hl & <-). destruct ns as [|[l x] ns].
  - exists self, h. split; [by apply pop_empty|]. exists []. auto.
  - destruct (pop_cons stack h self l x ns Hl) as (self' & Hp & Hl').
    exists self', (delete l h). split; [done|]. by exists ns.
Qed.

(** A decidable criterion for exclusive ownership: the invariant holds
    and the heap has no more nodes than the list. *)
Lemma abs_owns h self xs :
  abs h self = Some xs -> size h = length xs -> owns h self xs.
Proof.
  intros (ns & Hl & <-)%abs_repr Hsize. exists ns. split_and!; [done|done|].
  symmetry. apply set_subseteq_size_eq.
  - intros l Hin%elem_of_list_to_set. by eapply (chain_in_dom _ _ _ _ (proj1 Hl)).
  - rewrite size_dom, Hsize, size_list_to_set, !length_fmap; [done|].
    apply (chain_NoDup _ _ _ (proj1 Hl)).
Qed.
Lemma owns_repr h self xs : owns h self xs -> repr h self xs.
Proof. intros (ns & Hl & Hx & _). by exists ns. Qed.

Lemma owns_abs h self xs : owns h self xs -> abs h self = Some xs.
Proof. intros Ho. by apply abs_repr, owns_repr. Qed.

(** An empty list that owns its heap is [new] over the empty heap. *)
Lemma owns_nil h self : owns h self [] -> self = new /\ h = ∅.
Proof.
  intros (ns & Hl & Hx & Hdom). destruct ns; [|done].
  apply is_list_nil in Hl as [Hh Ht]. destruct self; simpl in *; subst.
  split; [done|]. apply dom_empty_inv_L. by rewrite Hdom.
Qed.

(** A list that owns its heap has exactly as many nodes as elements. *)
Lemma owns_size h self xs : owns h self xs -> size h = length xs.
Proof.
  intros (ns & [Hc _] & <- & Hdom). rewrite <- size_dom, Hdom, size_list_to_set.
  - by rewrite !length_fmap.
  - by eapply chain_NoDup.
Qed.
End Contents.

(** ** The null guard of [push] and the push/pop round trip *)

Section Errors.
Context {T : Type} (stack : nat).
Implicit Types (h : heap T) (self : List T).

(** C11: The [!self.tail.is_null()] guard of [push]: on every heap and
    every list, valid or not, [push] never dereferences a null pointer. *)
Theorem push_never_null_deref self x : no_null (push stack x self).
Proof.
  unfold push. apply no_null_bind; [auto with fifth|intros l].
  apply no_null_bind; [|auto with fifth].
  destruct (tail self) as [t|]; cbn [negb is_null].
  - apply no_null_bind; [auto with fifth|intros t'].
    apply no_null_bind; auto with fifth.
  - apply no_null_bind; auto with fifth.
Qed.

(** C12: On an empty list, [pop] after [push x] gives [x] back and
    leaves the list [new] over the heap it started from: the new box is
    freed and the raw [tail] pointer is null again. *)
Theorem push_pop_roundtrip h self x :
  is_list h self [] ->
  (let* s := push stack x self in pop stack s) h = Ok (Some x, new) h.
Proof.
  intros Hl. rewrite (bind_Ok _ _ _ _ _ (push_empty stack h self x Hl)).
  set (l := fresh (dom h)).
  destruct (pop_cons stack (<[l := mkNode x None]> h) (mkList (Some l) (Some l)) l x [])
    as (s' & Hp & Hl').
  { split; [|done]. apply (chain_cons _ _ (mkNode x None)); [by simplify_map_eq|].
    apply chain_nil. }
  rewrite Hp. apply is_list_nil in Hl' as [H1 H2]. destruct s'; simpl in *; subst.
  rewrite delete_insert_eq, delete_id; [done|]. apply fresh_not_live.
Qed.
End Errors.
