(* ===== verification/SepLogic.v ===== *)
(** * SepLogic: a separation logic for computations on the heap

    Assertions are predicates on heaps. [P ⋆ Q] holds of a heap that
    splits into two disjoint parts, one satisfying [P] and one
    satisfying [Q], as in the list-segment proofs of pointer programs.
    [hpts l n] is the heap holding exactly the node [n] at [l]. A triple
    [triple P m Q] is fault avoiding and framed: run on a heap whose
    part [h] satisfies [P], beside any other part [hf], the computation
    [m] does not fault, leaves [hf] untouched, and ends with a part
    satisfying [Q] of its result. The frame rule holds by construction
    ([triple_frame]). The rules for [alloc], [load], [store], [dealloc]
    and the derived rules for the field operations of [Memory] need only
    the nodes they touch. *)

From S2P Require Import Prelude Memory.

Definition hprop (T : Type) := heap T -> Prop.

Declare Scope sep_scope.
Delimit Scope sep_scope with sep.

Section Assertions.
Context {T : Type}.
Implicit Types (P Q R F : hprop T) (h : heap T).

Definition hemp : hprop T := fun h => h = ∅.

Definition hpure (φ : Prop) : hprop T := fun h => φ /\ h = ∅.

Definition hpts (l : loc) (n : Node T) : hprop T := fun h => h = {[l := n]}.

Definition hsep P Q : hprop T :=
  fun h => exists h1 h2, h1 ##ₘ h2 /\ h = h1 ∪ h2 /\ P h1 /\ Q h2.

Definition hex {A} (P : A -> hprop T) : hprop T := fun h => exists a, P a h.

Definition himpl P Q : Prop := forall h, P h -> Q h.
End Assertions.

Infix "⋆" := hsep (at level 40, left associativity) : sep_scope.
Notation "P -->> Q" := (himpl P%sep Q%sep) (at level 95, no associativity) : sep_scope.
Open Scope sep_scope.

(** Fault-avoiding triples with a built-in frame. *)
Definition triple {T A} (P : hprop T) (m : M T A) (Q : A -> hprop T) : Prop :=
  forall h hf, h ##ₘ hf -> P h ->
  exists a h', m (h ∪ hf) = Ok a (h' ∪ hf) /\ h' ##ₘ hf /\ Q a h'.

(** ** The algebra of assertions *)

Section Algebra.
Context {T : Type}.
Implicit Types (P Q R F : hprop T) (h : heap T).

Lemma himpl_refl P : P -->> P.
Proof. by intros h. Qed.

Lemma himpl_trans P Q R : P -->> Q -> Q -->> R -> P -->> R.
Proof. intros H1 H2 h Hh. auto. Qed.

Lemma hsep_mono P P' Q Q' : P -->> P' -> Q -->> Q' -> P ⋆ Q -->> P' ⋆ Q'.
Proof. intros H1 H2 h (h1 & h2 & Hd & -> & Hp & Hq). exists h1, h2. auto. Qed.

Lemma hsep_comm P Q : P ⋆ Q -->> Q ⋆ P.
Proof.
  intros h (h1 & h2 & Hd & -> & Hp & Hq). exists h2, h1.
  split_and!; [done|by apply map_union_comm|done|done].
Qed.

Lemma hsep_assoc_l P Q R : (P ⋆ Q) ⋆ R -->> P ⋆ (Q ⋆ R).
Proof.
  intros h (h12 & h3 & Hd & -> & (h1 & h2 & Hd' & -> & Hp & Hq) & Hr).
  apply map_disjoint_union_l in Hd as [Hd13 Hd23].
  exists h1, (h2 ∪ h3). split_and!.
  - by apply map_disjoint_union_r.
  - by rewrite map_union_assoc.
  - done.
  - by exists h2, h3.
Qed.

Lemma hsep_assoc_r P Q R : P ⋆ (Q ⋆ R) -->> (P ⋆ Q) ⋆ R.
Proof.
  intros h (h1 & h23 & Hd & -> & Hp & (h2 & h3 & Hd' & -> & Hq & Hr)).
  apply map_disjoint_union_r in Hd as [Hd12 Hd13].
  exists (h1 ∪ h2), h3. split_and!.
  - by apply map_disjoint_union_l.
  - by rewrite map_union_assoc.
  - by exists h1, h2.
  - done.
Qed.

Lemma hsep_emp_l P h : (hemp ⋆ P) h <-> P h.
Proof.
  split.
  - intros (h1 & h2 & _ & -> & -> & Hp). by rewrite map_empty_union.
  - intros Hp. exists ∅, h. split_and!; [apply map_disjoint_empty_l|by rewrite map_empty_union|done|done].
Qed.

Lemma hsep_pure_l φ P h : (hpure φ ⋆ P) h <-> φ /\ P h.
Proof.
  split.
  - intros (h1 & h2 & _ & -> & [Hφ ->] & Hp). by rewrite map_empty_union.
  - intros [Hφ Hp]. exists ∅, h.
    split_and!; [apply map_disjoint_empty_l|by rewrite map_empty_union|done|done].
Qed.

Lemma hsep_swap P Q R : P ⋆ (Q ⋆ R) -->> Q ⋆ (P ⋆ R).
Proof.
  eapply himpl_trans; [apply hsep_assoc_r|].
  eapply himpl_trans; [apply hsep_mono; [apply hsep_comm|apply himpl_refl]|].
  apply hsep_assoc_l.
Qed.

Lemma hsep_emp_intro P : P -->> hemp ⋆ P.
Proof. intros h. by rewrite hsep_emp_l. Qed.

Lemma hpure_intro φ P : φ -> P -->> hpure φ ⋆ P.
Proof. intros Hφ h Hp. by apply hsep_pure_l. Qed.

Lemma hsep_hex_r {A} P (Q : A -> hprop T) : P ⋆ hex Q -->> hex (fun a => P ⋆ Q a).
Proof. intros h (h1 & h2 & Hd & -> & Hp & [a Hq]). exists a, h1, h2. auto. Qed.

Lemma hex_intro {A} (P : A -> hprop T) a : P a -->> hex P.
Proof. intros h Hp. by exists a. Qed.
End Algebra.

(** ** Structural rules *)

Section Rules.
Context {T : Type}.
Implicit Types (P Q R F : hprop T) (h : heap T).

Lemma triple_conseq {A} P P' (Q Q' : A -> hprop T) m :
  triple P m Q -> P' -->> P -> (forall a, Q a -->> Q' a) -> triple P' m Q'.
Proof.
  intros Ht HP HQ h hf Hd Hp. destruct (Ht h hf Hd (HP h Hp)) as (a & h' & Hm & Hd' & Hq).
  exists a, h'. split_and!; auto. by apply HQ.
Qed.

Lemma triple_ret {A} P (Q : A -> hprop T) a : P -->> Q a -> triple P (ret a) Q.
Proof. intros HP h hf Hd Hp. exists a, h. split_and!; auto. Qed.

Lemma triple_bind {A B} P (Q : A -> hprop T) (R : B -> hprop T) m (k : A -> M T B) :
  triple P m Q -> (forall a, triple (Q a) (k a) R) -> triple P (let* x := m in k x) R.
Proof.
  intros Hm Hk h hf Hd Hp. destruct (Hm h hf Hd Hp) as (a & h1 & Hm' & Hd1 & Hq).
  destruct (Hk a h1 hf Hd1 Hq) as (b & h2 & Hk' & Hd2 & Hr).
  exists b, h2. rewrite (bind_Ok _ _ _ _ _ Hm'). auto.
Qed.

(** The frame rule. *)
Lemma triple_frame {A} P (Q : A -> hprop T) F m :
  triple P m Q -> triple (P ⋆ F) m (fun a => Q a ⋆ F).
Proof.
  intros Ht h hf Hd (h1 & h2 & Hd12 & -> & Hp & Hf).
  apply map_disjoint_union_l in Hd as [Hd1 Hd2].
  destruct (Ht h1 (h2 ∪ hf)) as (a & h' & Hm & Hd' & Hq);
    [by apply map_disjoint_union_r|done|].
  apply map_disjoint_union_r in Hd' as [Hd'2 Hd'f].
  exists a, (h' ∪ h2). rewrite <- !map_union_assoc. split_and!; [done| |].
  - by apply map_disjoint_union_l.
  - by exists h', h2.
Qed.

Lemma triple_exists {A B} (P : B -> hprop T) (Q : A -> hprop T) m :
  (forall b, triple (P b) m Q) -> triple (hex P) m Q.
Proof. intros Ht h hf Hd [b Hp]. by apply (Ht b). Qed.

(** A fact that every heap of the precondition satisfies may be used. *)
Lemma triple_pure_pre {A} (φ : Prop) P (Q : A -> hprop T) m :
  (forall h, P h -> φ) -> (φ -> triple P m Q) -> triple P m Q.
Proof. intros Hφ Ht h hf Hd Hp. by apply (Ht (Hφ h Hp)). Qed.

Lemma triple_false {A} P (Q : A -> hprop T) m : (forall h, ~ P h) -> triple P m Q.
Proof. intros Hf h hf Hd Hp. by destruct (Hf h). Qed.

Lemma triple_pure_only {A} φ (Q : A -> hprop T) m :
  (φ -> triple hemp m Q) -> triple (hpure φ) m Q.
Proof. intros Ht h hf Hd [Hφ ->]. by apply Ht. Qed.

Lemma triple_pure {A} φ P (Q : A -> hprop T) m :
  (φ -> triple P m Q) -> triple (hpure φ ⋆ P) m Q.
Proof. intros Ht h hf Hd [Hφ Hp]%hsep_pure_l. by apply Ht. Qed.
End Rules.

(** ** The primitives *)

Section Primitives.
Context {T : Type}.
Implicit Types (P Q R F : hprop T) (h : heap T) (n : Node T).

Lemma singleton_disjoint_lookup (l : loc) n (hf : heap T) : {[l := n]} ##ₘ hf -> hf !! l = None.
Proof. by intros ?%map_disjoint_singleton_l. Qed.

Lemma triple_alloc n : triple hemp (alloc n) (fun l => hpts l n).
Proof.
  intros h hf Hd Hh; red in Hh; subst h. rewrite map_empty_union. unfold alloc.
  exists (fresh (dom hf)), {[fresh (dom hf) := n]}. split_and!.
  - by rewrite insert_union_singleton_l.
  - apply map_disjoint_singleton_l, not_elem_of_dom, is_fresh.
  - done.
Qed.

Lemma triple_load l n : triple (hpts l n) (load l) (fun v => hpure (v = n) ⋆ hpts l n).
Proof.
  intros h hf Hd Hh; red in Hh; subst h. exists n, {[l := n]}. split_and!; [|done|by apply hsep_pure_l].
  apply load_live, lookup_union_Some_l, lookup_singleton_eq.
Qed.

Lemma triple_store l n n' : triple (hpts l n) (store l n') (fun _ => hpts l n').
Proof.
  intros h hf Hd Hh; red in Hh; subst h. exists tt, {[l := n']}.
  pose proof (singleton_disjoint_lookup _ _ _ Hd) as Hl.
  split_and!; [|by apply map_disjoint_singleton_l|done].
  rewrite (store_live _ _ n) by apply lookup_union_Some_l, lookup_singleton_eq.
  by rewrite insert_union_l, insert_singleton_eq.
Qed.

Lemma triple_dealloc l n : triple (hpts l n) (dealloc l) (fun _ => hemp).
Proof.
  intros h hf Hd Hh; red in Hh; subst h. exists tt, ∅. split_and!; [|apply map_disjoint_empty_l|done].
  rewrite (dealloc_live _ n) by apply lookup_union_Some_l, lookup_singleton_eq.
  rewrite delete_union, delete_singleton_eq, delete_id; [done|].
  by eapply singleton_disjoint_lookup.
Qed.

Lemma triple_deref_Some P l : triple P (deref (Some l)) (fun l' => hpure (l' = l) ⋆ P).
Proof. apply triple_ret. intros h Hp. by apply hsep_pure_l. Qed.

Lemma triple_write_next l n lk :
  triple (hpts l n) (write_next l lk) (fun _ => hpts l (mkNode (elem n) lk)).
Proof.
  eapply triple_bind; [apply triple_load|]. intros v. apply triple_pure. intros ->.
  apply triple_store.
Qed.

Lemma triple_write_elem l n x :
  triple (hpts l n) (write_elem l x) (fun _ => hpts l (mkNode x (next n))).
Proof.
  eapply triple_bind; [apply triple_load|]. intros v. apply triple_pure. intros ->.
  apply triple_store.
Qed.

(** Dropping [None] needs nothing. *)
Lemma triple_drop_None P d : triple P (drop_link d None) (fun _ => P).
Proof. destruct d; apply triple_ret, himpl_refl. Qed.

(** Assigning over a [None] next field needs only that node. *)
Lemma triple_assign_next_None l (y : T) d lk :
  triple (hpts l (mkNode y None)) (assign_next d l lk) (fun _ => hpts l (mkNode y lk)).
Proof.
  eapply triple_bind; [apply triple_load|]. intros v. apply triple_pure. intros ->.
  eapply triple_bind; [apply triple_drop_None|]. intros u. apply (triple_write_next l (mkNode y None)).
Qed.
End Primitives.
