(* ===== verification/SepSpec.v ===== *)
(** * SepSpec: separation-logic specifications of [push], [pop] and [peek_mut]

    [lseg lk e ns] is the list segment from the link [lk] to the link
    [e] through the nodes [ns], owning exactly them. [queue self xs] is
    the representation of a [List] holding [xs], the queue predicate of
    the pointer-program literature. An empty list is [head = None] and
    [tail] null over the empty heap. A non-empty one is a segment from
    [head] to the last node, and the last node itself, with [next]
    [None], which [tail] points to (the spec's invariants I1 and I2 as a
    heap shape). The specifications of [push], [pop] and an assignment
    through [peek_mut] are triples of [SepLogic], proved with its rules. Each method touches only the
    queue it is given, so by the frame rule they hold beside any other
    part of the heap. [queue_owns] shows the predicate agrees with
    [Fifth.owns] on the heap that the list owns. *)

From S2P Require Import Prelude Memory Chain Fifth SepLogic.

Section Lseg.
Context {T : Type}.
Implicit Types (ns : list (loc * T)) (xs : list T) (self : List T).

Fixpoint lseg (lk e : Link) ns : hprop T :=
  match ns with
  | [] => hpure (lk = e)
  | (l, x) :: ns =>
      hex (fun nx => hpure (lk = Some l) ⋆ (hpts l (mkNode x nx) ⋆ lseg nx e ns))
  end.

Definition queue self xs : hprop T :=
  match tail self with
  | None => hpure (head self = None /\ xs = [])
  | Some t =>
      hex (fun ns => hex (fun y =>
        hpure (xs = ns.*2 ++ [y]) ⋆ (hpts t (mkNode y None) ⋆ lseg (head self) (Some t) ns)))
  end.
End Lseg.

Section LsegLemmas.
Context {T : Type}.
Implicit Types (ns : list (loc * T)) (xs : list T) (self : List T) (h : heap T).

(** A segment ending at [t], followed by the node at [t], is a longer
    segment. *)
Lemma lseg_snoc ns lk t y e :
  lseg lk (Some t) ns ⋆ hpts t (mkNode y e) -->> lseg lk e (ns ++ [(t, y)]).
Proof.
  revert lk. induction ns as [|[l x] ns IH]; intros lk h; simpl.
  - intros (h1 & h2 & Hd & -> & [-> ->] & Ht). exists e. rewrite map_empty_union.
    apply hsep_pure_l. split; [done|]. apply hsep_comm, hsep_pure_l. done.
  - intros (h1 & h2 & Hd & -> & [nx Hp] & Ht). exists nx.
    apply hsep_pure_l in Hp as [-> Hp]. apply hsep_pure_l. split; [done|].
    apply (hsep_mono _ _ _ _ (himpl_refl _) (IH nx)), hsep_assoc_l.
    by exists h1, h2.
Qed.
End LsegLemmas.

Section Specs.
Context {T : Type} (stack : nat).
Implicit Types (ns : list (loc * T)) (xs : list T) (self : List T) (h : heap T).

(** C21: The separation-logic specification of [push]: from a queue
    holding [xs], [push x] needs nothing else of the heap, never faults,
    and leaves a queue holding [xs ++ [x]]. By the frame rule every
    other part of the heap is left as it was. *)
Theorem push_spec self xs (x : T) :
  triple (queue self xs) (push stack x self) (fun self' => queue self' (xs ++ [x])).
Proof.
  destruct self as [hd [t|]]; unfold queue at 1; cbn [tail head].
  - apply triple_exists. intros ns. apply triple_exists. intros y.
    apply triple_pure. intros ->. unfold push. cbn [tail head negb is_null].
    eapply triple_bind.
    { eapply triple_conseq; [apply triple_frame, triple_alloc|apply hsep_emp_intro|].
      intros l. apply himpl_refl. }
    intros l. eapply (triple_bind _ (fun s => hpure (s = mkList hd (Some t)) ⋆
      (hpts t (mkNode y (Some l)) ⋆ (hpts l (mkNode x None) ⋆ lseg hd (Some t) ns)))).
    + eapply triple_bind; [apply triple_deref_Some|]. intros t'.
      apply triple_pure. intros ->.
      eapply triple_bind.
      { eapply triple_conseq; [apply triple_frame, triple_assign_next_None|apply hsep_swap|].
        intros u. apply himpl_refl. }
      intros u. apply triple_ret. by apply hpure_intro.
    + intros s. apply triple_pure. intros ->. apply triple_ret. intros h Hh.
      unfold queue. cbn [tail head]. exists (ns ++ [(t, y)]), x.
      apply hsep_pure_l. split; [by rewrite fmap_app|].
      apply hsep_swap in Hh. revert Hh. apply hsep_mono; [apply himpl_refl|].
      eapply himpl_trans; [apply hsep_comm|apply lseg_snoc].
  - apply triple_pure_only. intros [-> ->]. unfold push. cbn [tail head negb is_null].
    eapply triple_bind; [apply triple_alloc|]. intros l.
    eapply (triple_bind _ (fun s => hpure (s = mkList (Some l) None) ⋆ hpts l (mkNode x None))).
    + unfold set_head. cbn [head].
      eapply triple_bind; [apply triple_drop_None|]. intros u.
      apply triple_ret. by apply hpure_intro.
    + intros s. apply triple_pure. intros ->. apply triple_ret. intros h Hh.
      unfold queue. cbn [tail head]. exists [], x.
      apply hsep_pure_l. split; [done|]. apply hsep_comm, hsep_pure_l. done.
Qed.
End Specs.

Section PopSpec.
Context {T : Type} (stack : nat).
Implicit Types (ns : list (loc * T)) (xs : list T) (self : List T) (h : heap T).

(** A segment that ends at a node cannot start at [None]. *)
Lemma lseg_None_Some ns t h : ~ lseg None (Some t) ns h.
Proof.
  destruct ns as [|[l x] ns]; simpl.
  - by intros [? _].
  - intros [nx (h1 & h2 & _ & _ & [? _] & _)]. done.
Qed.

(** [pop] on a queue: it returns the first element (nothing when empty)
    and leaves a queue holding the rest; the removed node is freed. *)
Lemma pop_triple self xs :
  triple (queue self xs) (pop stack self)
    (fun p => hpure (p.1 = hd_error xs) ⋆ queue p.2 (tl xs)).
Proof.
  destruct self as [hd [t|]]; unfold queue at 1; cbn [tail head].
  - apply triple_exists. intros ns. apply triple_exists. intros y.
    apply triple_pure. intros ->. destruct ns as [|[l x] ns]; simpl lseg.
    + eapply triple_conseq; [|apply hsep_comm|intros p; apply himpl_refl].
      apply triple_pure. intros ->. unfold pop. cbn [head tail].
      eapply triple_bind; [apply triple_load|]. intros v. apply triple_pure. intros ->.
      eapply triple_bind; [apply triple_dealloc|]. intros u.
      eapply (triple_bind _ (fun s => hpure (s = mkList None (Some t)) ⋆ hemp)).
      * unfold set_head. cbn [head next].
        eapply triple_bind; [apply triple_drop_None|]. intros u'.
        apply triple_ret. by apply hpure_intro.
      * intros s. apply triple_pure. intros ->. apply triple_ret. intros h Hh.
        apply hsep_pure_l. split; [done|]. by split.
    + eapply triple_conseq; [|apply hsep_hex_r|intros p; apply himpl_refl].
      apply triple_exists. intros nx.
      eapply triple_conseq; [|apply hsep_swap|intros p; apply himpl_refl].
      apply triple_pure. intros ->. unfold pop. cbn [head tail].
      eapply triple_bind.
      { eapply triple_conseq; [apply triple_frame, triple_load|apply hsep_swap|].
        intros v. apply hsep_assoc_l. }
      intros v. apply triple_pure. intros ->.
      eapply triple_bind; [apply triple_frame, triple_dealloc|]. intros u.
      eapply (triple_bind _ (fun s => hpure (s = mkList nx (Some t)) ⋆
        (hpts t (mkNode y None) ⋆ lseg nx (Some t) ns))).
      * unfold set_head. cbn [head next].
        eapply triple_bind; [apply triple_drop_None|]. intros u'.
        apply triple_ret. intros h Hh. apply hpure_intro; [done|]. by apply hsep_emp_l.
      * intros s. apply triple_pure. intros ->. destruct nx as [l'|].
        -- cbn [head is_none]. apply triple_ret. intros h Hh.
           apply hsep_pure_l. split; [done|]. unfold queue. cbn [tail head].
           exists ns, y. by apply hsep_pure_l.
        -- apply triple_false. intros h (h1 & h2 & _ & _ & _ & Hs).
           by eapply lseg_None_Some.
  - apply triple_pure_only. intros [-> ->]. unfold pop. cbn [head tail].
    apply triple_ret. intros h Hh. apply hsep_pure_l. split; [done|].
    unfold queue. by split.
Qed.

(** C22: The separation-logic specification of [pop], with its frame:
    on a queue holding [xs] beside any other part [F] of the heap, [pop]
    never faults, returns the first element (nothing when empty), frees
    the removed node, leaves a queue holding the rest, and leaves [F]
    as it was. *)
Theorem pop_spec self xs (F : hprop T) :
  triple (queue self xs ⋆ F) (pop stack self)
    (fun p => hpure (p.1 = hd_error xs) ⋆ (queue p.2 (tl xs) ⋆ F)).
Proof.
  eapply triple_conseq; [apply triple_frame, pop_triple|apply himpl_refl|].
  intros p. apply hsep_assoc_l.
Qed.
End PopSpec.

Section PeekMutSpec.
Context {T : Type}.
Implicit Types (ns : list (loc * T)) (xs : list T) (self : List T) (h : heap T).

(** C25: The separation-logic specification of [peek_mut] followed by an
    assignment through the reference it returns: on a queue holding
    [x :: xs], the assignment [*r = y] needs only the queue, never
    faults, and leaves a queue holding [y :: xs], whether the head is
    also the last node or not. *)
Theorem peek_mut_spec self x xs (y : T) :
  triple (queue self (x :: xs))
    (match peek_mut self with Some r => assign_ref r y | None => ret tt end)
    (fun _ => queue self (y :: xs)).
Proof.
  destruct self as [hd [t|]]; unfold queue; cbn [tail head].
  - apply triple_exists. intros ns. apply triple_exists. intros z.
    apply triple_pure. intros Hxs. destruct ns as [|[l x0] ns]; simpl lseg.
    + simpl in Hxs. injection Hxs as -> ->.
      eapply triple_conseq; [|apply hsep_comm|intros u; apply himpl_refl].
      apply triple_pure. intros ->. unfold peek_mut. cbn [head].
      eapply triple_conseq; [apply triple_write_elem|apply himpl_refl|].
      intros u h Hh. exists [], y. apply hpure_intro; [done|].
      apply hsep_comm, hsep_pure_l. done.
    + simpl in Hxs. injection Hxs as -> ->.
      eapply triple_conseq; [|apply hsep_hex_r|intros u; apply himpl_refl].
      apply triple_exists. intros nx.
      eapply triple_conseq; [|apply hsep_swap|intros u; apply himpl_refl].
      apply triple_pure. intros ->. unfold peek_mut. cbn [head].
      eapply triple_conseq; [apply triple_frame, triple_write_elem|apply hsep_swap|].
      intros u h Hh. exists ((l, y) :: ns), z. apply hpure_intro; [done|].
      apply hsep_swap in Hh. revert Hh. apply hsep_mono; [apply himpl_refl|].
      intros h' Hh'. exists nx. by apply hpure_intro.
  - apply triple_pure_only. intros [_ ?]. done.
Qed.
End PeekMutSpec.

Section Equiv.
Context {T : Type}.
Implicit Types (ns : list (loc * T)) (xs : list T) (self : List T) (h : heap T).

(** A segment ending at [e] through a last node [t] splits off that
    node. *)
Lemma lseg_snoc_inv ns lk t y e :
  lseg lk e (ns ++ [(t, y)]) -->> lseg lk (Some t) ns ⋆ hpts t (mkNode y e).
Proof.
  revert lk. induction ns as [|[l x] ns IH]; intros lk h; simpl.
  - intros [nx Hh]. apply hsep_pure_l in Hh as [-> Hh].
    apply hsep_comm, hsep_pure_l in Hh as [-> Hh]. by apply hsep_pure_l.
  - intros [nx Hh]. apply hsep_pure_l in Hh as [-> Hh].
    apply (hsep_mono _ _ _ _ (himpl_refl _) (IH nx)), hsep_assoc_r in Hh.
    revert Hh. apply hsep_mono; [|apply himpl_refl].
    intros h' Hh'. exists nx. by apply hsep_pure_l.
Qed.

(** A segment to [None] is a chain over exactly its nodes. *)
Lemma lseg_chain ns lk h :
  lseg lk None ns h -> chain h lk ns /\ dom h = list_to_set ns.*1.
Proof.
  revert lk h. induction ns as [|[l x] ns IH]; intros lk h; simpl.
  - intros [-> ->]. split; [constructor|by rewrite dom_empty_L].
  - intros [nx Hh]. apply hsep_pure_l in Hh as [-> (h1 & h2 & Hd & -> & -> & Hs)].
    destruct (IH _ _ Hs) as [Hc Hdom]. split.
    + apply (chain_cons _ _ (mkNode x nx)).
      * apply lookup_union_Some_l, lookup_singleton_eq.
      * eapply chain_weaken; [done|by apply map_union_subseteq_r].
    + by rewrite dom_union_L, dom_singleton_L, Hdom.
Qed.

Lemma chain_lseg ns lk h :
  chain h lk ns -> dom h = list_to_set ns.*1 -> lseg lk None ns h.
Proof.
  revert lk h. induction ns as [|[l x] ns IH]; intros lk h Hc Hdom; simpl.
  - inversion Hc; subst. split; [done|]. apply dom_empty_inv_L. by rewrite Hdom.
  - pose proof (chain_NoDup _ _ _ Hc) as Hnd. apply NoDup_cons in Hnd as [Hnin _].
    inversion Hc as [|l' n ns' Hl Hc' Hhd]; subst.
    exists (next n). apply hsep_pure_l. split; [done|].
    exists {[l := mkNode (elem n) (next n)]}, (delete l h). split_and!.
    + by apply map_disjoint_singleton_l, lookup_delete_eq.
    + destruct n. by rewrite <- insert_union_singleton_l, insert_delete_id.
    + done.
    + apply IH; [by apply chain_delete_other|].
      rewrite dom_delete_L, Hdom. simpl. set_solver.
Qed.

(** A list that owns its heap is a queue over it. *)
Lemma owns_queue self xs h : owns h self xs -> queue self xs h.
Proof.
  destruct self as [hd [t|]]; unfold queue; cbn [tail head].
  - intros (ns & [Hc Ht] & <- & Hdom). cbn [tail head] in *.
    destruct (decide (ns = [])) as [->|Hne]; [done|].
    destruct (exists_last Hne) as (ns' & [t' y] & ->).
    rewrite fmap_app in Ht; simpl in Ht; rewrite last_snoc in Ht. injection Ht as Ht. subst t'.
    exists ns', y. apply hsep_pure_l. split; [by rewrite fmap_app|].
    apply hsep_comm, lseg_snoc_inv. by apply chain_lseg.
  - intros (ns & Hl & <- & Hdom). destruct ns as [|p ns].
    + apply is_list_nil in Hl as [Hh _]. split; [done|]. apply dom_empty_inv_L. by rewrite Hdom.
    + by destruct Hl as [_ Ht]; destruct (last (p :: ns).*1) eqn:E;
        [|apply last_None in E].
Qed.

(** The separation-logic representation agrees with the invariant of
    [Fifth]: a heap satisfies [queue self xs] exactly when [self] is a
    valid list holding [xs] that owns every node of the heap. *)
Lemma queue_owns self xs h : queue self xs h <-> owns h self xs.
Proof.
  split; [|apply owns_queue].
  destruct self as [hd [t|]]; unfold queue; cbn [tail head].
  - intros (ns & y & Hh). apply hsep_pure_l in Hh as [-> Hh].
    apply hsep_comm, lseg_snoc in Hh. apply lseg_chain in Hh as [Hc Hdom].
    exists (ns ++ [(t, y)]).
    split; [split; [done|cbn [tail]; rewrite fmap_app; simpl; by rewrite last_snoc]|].
    split; [by rewrite fmap_app|done].
  - intros [[-> ->] ->]. exists []. split_and!; [by apply is_list_nil|done|by rewrite dom_empty_L].
Qed.

(** A queue is one segment from [head] to [None]. *)
Lemma queue_lseg self xs : queue self xs -->> hex (fun ns => lseg (head self) None ns).
Proof.
  destruct self as [hd [t|]]; unfold queue; cbn [tail head]; intros h.
  - intros (ns & y & Hh). apply hsep_pure_l in Hh as [_ Hh].
    exists (ns ++ [(t, y)]). by apply lseg_snoc, hsep_comm.
  - intros [[-> _] ->]. by exists [].
Qed.
End Equiv.
