(* ===== verification/Drop.v ===== *)
(** * Drop: [impl Drop for List<T>] (src/src/fifth.rs, lines 77-84)

    The destructor walks the chain with a loop. Each iteration takes the
    current node's [next] link out ([take]), then lets the node's box go
    out of scope. The box's drop glue then finds [None] in [next] and frees
    just that node. [drop_loop] is the loop, with fuel. [List_drop] gives
    it [S (size h)], which cannot run out: each iteration frees a live node
    or faults ([drop_loop_no_fuel_fault]). The theorems: the loop
    terminates on every heap; on a valid list it frees exactly the chain
    and touches nothing else; with exclusive ownership it leaves an empty
    heap (no leak); it needs one drop-glue frame whatever the length.
    [IntoIter_drop] is the drop glue of [IntoIter], which runs the
    list's destructor on its field. *)

From S2P Require Import Prelude Memory Chain Fifth.

Section Drop.
Context {T : Type} (stack : nat).
Implicit Types (h : heap T) (self : List T) (ns : list (loc * T)).

(** [while let Some(mut boxed_node) = cur_link {
       cur_link = boxed_node.next.take(); }] *)
Fixpoint drop_loop (fuel : nat) (cur_link : Link) : M T unit :=
  match cur_link with
  | None => ret tt
  | Some l =>
      match fuel with
      | O => fail OutOfFuel
      | S f =>
          let* cur_link := take_next l in
          drop_link stack (Some l) ;;
          drop_loop f cur_link
      end
  end.

(** The number of live nodes, to bound the loop. *)
Definition heap_size : M T nat := fun h => Ok (size h) h.

(** The drop glue of [List<T>]'s fields. It runs after [Drop::drop]:
    [head] is dropped (recursively, were it not [None]), and the raw
    [tail] owns nothing. [Drop::drop] has taken [head], so here it only
    ever drops [None]. *)
Definition default_drop self : M T unit := drop_link stack (head self).

(** Dropping a [List]: [<List<T> as Drop>::drop] ([self.head.take()],
    then the loop), then the field glue on what it left. *)
Definition List_drop self : M T (List T) :=
  let cur_link := head self in
  let self := mkList None (tail self) in
  let* n := heap_size in
  drop_loop (S n) cur_link ;;
  default_drop self ;;
  ret self.

(** The drop glue of [pub struct IntoIter<T>(List<T>)]: dropping the
    iterator drops the list it holds, with the destructor above. *)
Definition IntoIter_drop (it : IntoIter T) : M T (List T) := List_drop (into_list it).

(** [h'] is [h] with exactly the locations [ls] freed. *)
Definition freed h h' (ls : list loc) : Prop :=
  dom h' = dom h ∖ list_to_set ls /\ forall l, l ∉ ls -> h' !! l = h !! l.

(** The drop glue of a box whose [next] is [None] frees that box alone
    and needs one frame. *)
Lemma drop_box_taken d l e h :
  h !! l = Some (mkNode e None) ->
  drop_link (S d) (Some l) h = Ok tt (delete l h).
Proof.
  intros Hl. simpl. rewrite (bind_Ok _ _ _ _ h (load_live _ _ _ Hl)). simpl.
  rewrite (bind_Ok _ _ _ tt h (drop_link_None _ _)). by eapply dealloc_live.
Qed.

Lemma take_next_live l n h :
  h !! l = Some n -> take_next l h = Ok (next n) (<[l := mkNode (elem n) None]> h).
Proof.
  intros Hl. unfold take_next. rewrite (bind_Ok _ _ _ n h (load_live _ _ _ Hl)).
  by rewrite (bind_Ok _ _ _ tt _ (write_next_live _ _ _ _ Hl)).
Qed.

(** One iteration of the loop on a live node [l] with [stack >= 1]. *)
Lemma drop_loop_step f l n h :
  1 <= stack -> h !! l = Some n ->
  drop_loop (S f) (Some l) h = drop_loop f (next n) (delete l h).
Proof.
  intros Hs Hl. destruct stack as [|d] eqn:Hd; [lia|]. cbn [drop_loop]. rewrite Hd.
  rewrite (bind_Ok _ _ _ _ _ (take_next_live _ _ _ Hl)).
  rewrite (bind_Ok _ _ _ tt _ (drop_box_taken d l (elem n) (<[l := mkNode (elem n) None]> h)
    ltac:(by simplify_map_eq))).
  by rewrite delete_insert_eq.
Qed.

Lemma freed_cons h h' l ls n :
  h !! l = Some n -> l ∉ ls -> freed (delete l h) h' ls -> freed h h' (l :: ls).
Proof.
  intros Hl Hnin [Hdom Hfr]. split.
  - rewrite Hdom, dom_delete_L. simpl. set_solver.
  - intros l' Hl'. rewrite Hfr by set_solver. apply lookup_delete_ne. set_solver.
Qed.

Lemma take_next_dead l h : h !! l = None -> @take_next T l h = Fault (UseAfterFree l).
Proof. intros Hl. unfold take_next. by rewrite (bind_Fault _ _ _ _ (load_dead _ _ Hl)). Qed.

(** The drop glue of a taken box either frees it or, on a stack with no
    frame left, overflows. *)
Lemma drop_box_cases l e h :
  h !! l = Some (mkNode e None) ->
  (stack = 0 /\ drop_link stack (Some l) h = Fault StackOverflow) \/
  drop_link stack (Some l) h = Ok tt (delete l h).
Proof. intros Hl. destruct stack as [|d]; [by left|right; by eapply drop_box_taken]. Qed.

(** C10: Termination: on any heap, well formed or not and for any stack, the
    loop never runs out of the fuel [List_drop] gives it. Each iteration
    frees a live node or stops with a memory fault. *)
Theorem drop_loop_no_fuel_fault n cur h :
  size h < n -> drop_loop n cur h <> Fault OutOfFuel.
Proof.
  revert cur h. induction n as [|f IH]; intros [l|] h Hn; try lia; try done.
  cbn [drop_loop]. destruct (h !! l) as [nd|] eqn:Hl.
  - rewrite (bind_Ok _ _ _ _ _ (take_next_live _ _ _ Hl)).
    destruct (drop_box_cases l (elem nd) (<[l := mkNode (elem nd) None]> h))
      as [[_ Hf]|Hok]; [by simplify_map_eq| |].
    + by rewrite (bind_Fault _ _ _ _ Hf).
    + rewrite (bind_Ok _ _ _ _ _ Hok), delete_insert_eq. apply IH.
      assert (size h <> 0) by (apply map_size_ne_0_lookup; eauto).
      rewrite map_size_delete_Some by (rewrite Hl; eauto). lia.
  - by rewrite (bind_Fault _ _ _ _ (take_next_dead _ _ Hl)).
Qed.

(** On a valid chain, with a stack of at least one frame, the loop frees
    exactly the chain's nodes and leaves every other location alone. *)
Lemma drop_loop_frees n cur h ns :
  1 <= stack -> chain h cur ns -> length ns <= n ->
  exists h', drop_loop n cur h = Ok tt h' /\ freed h h' ns.*1.
Proof.
  intros Hs. revert n cur h. induction ns as [|[l x] ns IH]; intros n cur h Hc Hn.
  - invc Hc. exists h. split; [by destruct n|]. split; [set_solver|done].
  - pose proof (chain_NoDup _ _ _ Hc) as Hnd. apply NoDup_cons in Hnd as [Hnin _].
    invc Hc. destruct n as [|f]; [simpl in Hn; lia|].
    rewrite (drop_loop_step f l n0 h Hs H2).
    destruct (IH f (next n0) (delete l h)) as (h' & Hrun & Hfr);
      [by apply chain_delete_other|simpl in Hn; lia|].
    exists h'. split; [done|]. by eapply freed_cons.
Qed.

End Drop.

#[export] Hint Resolve take_next_live : fifth.

Section DropTheorems.
Context {T : Type}.
Implicit Types (h : heap T) (self : List T).

(** C6: Dropping a list that owns its whole heap frees every node and
    leaves the heap empty (no leak, no double free, no use after free),
    with one frame of stack for drop glue, whatever the list's length. *)
Theorem List_drop_no_leak stack h self xs :
  1 <= stack -> owns h self xs ->
  List_drop stack self h = Ok (mkList None (tail self)) ∅.
Proof.
  intros Hs (ns & [Hc _] & _ & Hdom). unfold List_drop. cbv zeta.
  rewrite (bind_Ok heap_size _ h (size h) h eq_refl).
  destruct (drop_loop_frees stack (S (size h)) (head self) h ns Hs Hc)
    as (h' & Hrun & [Hdom' _]); [pose proof (chain_length_le _ _ _ Hc); lia|].
  rewrite (bind_Ok _ _ _ _ _ Hrun). unfold default_drop. cbn [head].
  rewrite (bind_Ok _ _ _ tt h' (drop_link_None stack h')). unfold ret. f_equal.
  apply dom_empty_inv_L. rewrite Hdom', Hdom. set_solver.
Qed.

End DropTheorems.
