(* ===== verification/Reference.v ===== *)
(** * Reference: the O(1) [push] against a push that walks the chain

    The spec asks that tail insertion never walk the chain: the raw
    [tail] pointer is there only to find the last node in O(1). This file
    states that contract as an equivalence. [push_walk] is the textbook
    append of a singly linked list without a tail pointer. It finds the
    last node by following [next] from [head] ([find_last], with the heap
    size as fuel), links the new node there, and sets [tail] to it. On
    every valid list, [Fifth.push] computes exactly what [push_walk]
    computes, the same result and the same heap. So the shortcut through
    [tail] is sound, and it is the only difference. *)

From S2P Require Import Prelude Memory Chain Fifth Drop.

Section Reference.
Context {T : Type} (stack : nat).
Implicit Types (h : heap T) (self : List T) (ns : list (loc * T)).

(** Following [next] from the node at [l] to the node whose [next] is
    [None]; [fuel] bounds the number of nodes visited. *)
Fixpoint find_last (fuel : nat) (l : loc) : M T loc :=
  match fuel with
  | O => fail OutOfFuel
  | S f =>
      let* n := load l in
      match next n with
      | None => ret l
      | Some l' => find_last f l'
      end
  end.

(** Append by walking: allocate, then link the new node after the last
    node found from [head], or make it the head of an empty list. *)
Definition push_walk (x : T) self : M T (List T) :=
  let* fuel := heap_size in
  let* new_tail := alloc (mkNode x None) in
  let* self :=
    match head self with
    | None => set_head stack self (Some new_tail)
    | Some l => let* t := find_last fuel l in
                assign_next stack t (Some new_tail) ;; ret self
    end in
  ret (mkList (head self) (Some new_tail)).

(** On a chain, [find_last] with enough fuel reaches its last node and
    changes nothing. *)
Lemma find_last_chain h l ns t fuel :
  chain h (Some l) ns -> last ns.*1 = Some t -> length ns <= fuel ->
  find_last fuel l h = Ok t h.
Proof.
  revert l fuel. induction ns as [|[l1 x1] ns IH]; intros l fuel Hc Hlast Hlen; [done|].
  inversion Hc as [|l' [e nx] ns' Hl Hnx]; subst.
  destruct fuel as [|fuel]; [simpl in Hlen; lia|]. simpl.
  rewrite (bind_Ok _ _ _ _ h (load_live _ _ _ Hl)). simpl in Hnx.
  destruct ns as [|[l2 x2] ns]; inversion Hnx; subst.
  - simpl in Hlast. by simplify_eq.
  - apply IH; [done|done|simpl in *; lia].
Qed.

(** A fresh location is on no chain of the heap. *)
Lemma fresh_not_in_chain h lk ns : chain h lk ns -> fresh (dom h) ∉ ns.*1.
Proof. intros Hc Hin. apply (is_fresh (dom h)). by eapply chain_in_dom. Qed.

(** C13: On a valid list, [push] through the raw [tail] pointer is
    equivalent to the append that walks the chain from [head] to its last
    node: both give the same list and the same heap. *)
Theorem push_walk_equiv h self ns x :
  is_list h self ns -> push_walk x self h = push stack x self h.
Proof.
  intros Hl. unfold push_walk.
  rewrite (bind_Ok _ _ _ (size h) h) by done.
  set (l := fresh (dom h)).
  rewrite (bind_Ok _ _ _ l (<[l := mkNode x None]> h)) by done.
  destruct (decide (ns = [])) as [->|Hne].
  - rewrite (push_empty stack h self x Hl). apply is_list_nil in Hl as [Hh Ht].
    rewrite Hh, (bind_Ok _ _ _ _ _ (set_head_empty stack self _ _ Hh)). by rewrite Ht.
  - destruct (push_nonempty stack h self ns x Hl Hne) as (t & y & Ht & Hty & ->).
    destruct Hl as [Hc Hlast]. destruct ns as [|[l0 x0] ns']; [done|].
    inversion Hc as [|l' n ns'' Hl0 Hc' Hhd]; subst.
    assert (h !! l = None) by apply fresh_not_live.
    assert (t ≠ l) by congruence.
    rewrite (bind_assoc _ _ _ (<[l := mkNode x None]> h)).
    rewrite (bind_Ok _ _ _ t (<[l := mkNode x None]> h)).
    2: { eapply find_last_chain; [|by rewrite <- Ht|].
         - rewrite Hhd. apply chain_insert_other; [done|]. by eapply fresh_not_in_chain.
         - etransitivity; [eapply chain_length_le, Hc|]. done. }
    rewrite (bind_assoc _ _ _ (<[l := mkNode x None]> h)).
    rewrite (bind_Ok _ _ _ tt _ (assign_next_none stack t y (Some l) (<[l := mkNode x None]> h)
      ltac:(by simpl_heap))).
    rewrite bind_ret_l. by rewrite <- Hhd.
Qed.
End Reference.
