(* ===== verification/Refinement.v ===== *)
(** * Refinement: the heap implementation meets the FIFO contract

    Three ways to relate the [List] methods of [Fifth] to the list model
    of [FifoSpec]:
    - [heap_fifo] makes a pair of a heap and a [List] an instance of
      [FifoQueue]. A fault is not hidden: it makes the queue value
      [None], which is not well formed. [heap_fifo_laws] discharges
      [FifoLaws] with [owns] as well-formedness, so every client theorem
      of [FifoSpec] holds of the Rust code.
    - [exec_ops] runs a client program directly in the heap monad.
      [exec_ops_simulation] shows it never faults and answers as
      [model_ops] does. It is the simulation of the list model by the
      implementation, step by step.
    - [basics] is the unit test of src/src/fifth.rs (lines 108-135),
      statement by statement, with [assert_eq!] failing as
      [AssertFailed]. The list is dropped when the test's scope ends.
      [basics_passes] runs it.
    [drain] is a [for] loop over [into_iter]. It collects what
    [IntoIter::next] yields until [None], and [into_iter_drains] proves
    it yields the contents in order and frees every node. *)

From S2P Require Import Prelude Memory Chain FifoSpec Fifth Drop.

Section Exec.
Context {T : Type} (stack : nat).
Implicit Types (h : heap T) (self : List T).

(** [peek] followed by a read through the returned reference. *)
Definition peek_value self : M T (option T) :=
  match peek self with
  | None => ret None
  | Some r => let* v := read_ref r in ret (Some v)
  end.

Fixpoint exec_ops (ops : list (op T)) self : M T (list (option T) * List T) :=
  match ops with
  | [] => ret ([], self)
  | Push x :: ops => let* self := push stack x self in exec_ops ops self
  | Pop :: ops =>
      let* '(r, self) := pop stack self in
      let* '(rs, self) := exec_ops ops self in ret (r :: rs, self)
  | Peek :: ops =>
      let* r := peek_value self in
      let* '(rs, self) := exec_ops ops self in ret (r :: rs, self)
  end.

(** A [for x in list.into_iter()] loop collecting the elements; [fuel]
    bounds the iterations. *)
Fixpoint drain (fuel : nat) (it : IntoIter T) : M T (list T * IntoIter T) :=
  match fuel with
  | O => ret ([], it)
  | S f =>
      let* '(r, it) := into_iter_next stack it in
      match r with
      | None => ret ([], it)
      | Some x => let* '(xs, it) := drain f it in ret (x :: xs, it)
      end
  end.

(** The heap implementation as a pure queue value. A fault is not
    hidden: it makes the queue [None], a stuck value that is not well
    formed, so the laws of the interface can hold only of code that never
    faults on a well-formed queue. *)
#[local] Instance heap_fifo : FifoQueue (option (heap T * List T)) T := {
  fq_new := Some (∅, new);
  fq_push x q :=
    match q with
    | Some (h, self) =>
        match push stack x self h with Ok self' h' => Some (h', self') | Fault _ => None end
    | None => None
    end;
  fq_pop q :=
    match q with
    | Some (h, self) =>
        match pop stack self h with
        | Ok (r, self') h' => (r, Some (h', self'))
        | Fault _ => (None, None)
        end
    | None => (None, None)
    end;
  fq_peek q :=
    match q with
    | Some (h, self) => match peek_value self h with Ok r _ => r | Fault _ => None end
    | None => None
    end;
}.

Definition heap_wf (q : option (heap T * List T)) : Prop :=
  match q with Some (h, self) => exists xs, owns h self xs | None => False end.

Definition heap_contents (q : option (heap T * List T)) : list T :=
  match q with Some (h, self) => default [] (abs h self) | None => [] end.
End Exec.

(** [assert_eq!(a, b)] *)
Definition assert_eq {T A} `{EqDecision A} (a b : A) : M T unit :=
  if decide (a = b) then ret tt else fail AssertFailed.

(** The test [basics]: [let mut list = List::new();] ... and, at the end
    of the scope, the destructor of [list]. *)
Definition basics (stack : nat) : M nat unit :=
  let list := new in
  let* '(r, list) := pop stack list in assert_eq r None ;;
  let* list := push stack 1 list in
  let* list := push stack 2 list in
  let* list := push stack 3 list in
  let* '(r, list) := pop stack list in assert_eq r (Some 1) ;;
  let* '(r, list) := pop stack list in assert_eq r (Some 2) ;;
  let* list := push stack 4 list in
  let* list := push stack 5 list in
  let* '(r, list) := pop stack list in assert_eq r (Some 3) ;;
  let* '(r, list) := pop stack list in assert_eq r (Some 4) ;;
  let* '(r, list) := pop stack list in assert_eq r (Some 5) ;;
  let* '(r, list) := pop stack list in assert_eq r None ;;
  let* list := push stack 6 list in
  let* list := push stack 7 list in
  let* '(r, list) := pop stack list in assert_eq r (Some 6) ;;
  let* '(r, list) := pop stack list in assert_eq r (Some 7) ;;
  let* '(r, list) := pop stack list in assert_eq r None ;;
  List_drop stack list ;; ret tt.

Section Theorems.
Context {T : Type} (stack : nat).
Implicit Types (h : heap T) (self : List T) (xs : list T).

Lemma peek_value_owns h self xs :
  owns h self xs -> peek_value self h = Ok (hd_error xs) h.
Proof. intros Ho. by apply peek_read, owns_repr. Qed.

(** Simulation of the list model. From any list that owns its heap,
    every interleaving of [push], [pop] and [peek] runs without a fault,
    answers each [pop] and [peek] as the list model does (the earliest
    element not yet popped, or nothing), and ends with a list that owns
    the new heap and holds the model's final contents. *)
Lemma exec_ops_simulation ops h self xs :
  owns h self xs ->
  exists self' h',
    exec_ops stack ops self h = Ok ((model_ops ops xs).1, self') h' /\
    owns h' self' (model_ops ops xs).2.
Proof.
  unfold model_ops. revert h self xs.
  induction ops as [|[x| |] ops IH]; intros h self xs Ho; simpl.
  - eauto.
  - destruct (push_owns stack h self xs x Ho) as (s1 & h1 & Hp & Ho1).
    rewrite (bind_Ok _ _ _ _ _ Hp). by apply IH.
  - destruct (pop_owns stack h self xs Ho) as (s1 & h1 & Hp & Ho1).
    rewrite (bind_Ok _ _ _ _ _ Hp). simpl.
    destruct (IH _ _ _ Ho1) as (s2 & h2 & He & Ho2).
    rewrite (bind_Ok _ _ _ _ _ He).
    destruct (run_ops ops (tl xs)). eauto.
  - rewrite (bind_Ok _ _ _ _ _ (peek_value_owns _ _ _ Ho)).
    destruct (IH _ _ _ Ho) as (s2 & h2 & He & Ho2).
    rewrite (bind_Ok _ _ _ _ _ He).
    destruct (run_ops ops xs). eauto.
Qed.

(** C1: Interleaving (the spec's P3). Any sequence of [push], [pop] and
    [peek] calls on [List::new] over the empty heap runs without a fault
    and answers as the list model does: each [pop] and [peek] gives the
    earliest element pushed and not yet popped, or nothing. The list
    then owns exactly the heap and holds the model's final contents. *)
Theorem exec_ops_from_new (ops : list (op T)) :
  exists self' h',
    exec_ops stack ops new ∅ = Ok ((model_ops ops []).1, self') h' /\
    owns h' self' (model_ops ops []).2.
Proof. apply exec_ops_simulation, new_owns. Qed.

(** C2: FIFO order (the spec's P2): pushing [xs] onto a new list and
    then popping as many times returns the elements in push order and
    leaves an empty list over an empty heap. *)
Theorem push_then_pop_fifo xs :
  exec_ops stack (map Push xs ++ replicate (length xs) Pop) new ∅
  = Ok (map Some xs, new) ∅.
Proof.
  destruct (exec_ops_simulation (map Push xs ++ replicate (length xs) Pop) ∅ new []
              new_owns) as (s & h & He & Ho).
  rewrite model_ops_pushes, model_ops_pops in He, Ho. simpl in *.
  destruct (owns_nil _ _ Ho) as [-> ->]. done.
Qed.

(** C7: The consuming iterator yields the contents in insertion order,
    then [None]; the list it owned ends empty and every node is freed. *)
Theorem into_iter_drains fuel h self xs :
  owns h self xs -> length xs < fuel ->
  drain stack fuel (into_iter self) h = Ok (xs, into_iter new) ∅.
Proof.
  revert fuel h self. induction xs as [|x xs IH]; intros [|f] h self Ho Hf;
    simpl in Hf; try lia; simpl; unfold into_iter_next; simpl.
  - destruct (pop_owns stack h self [] Ho) as (s1 & h1 & Hp & Ho1).
    rewrite bind_assoc, (bind_Ok _ _ _ _ _ Hp). simpl.
    destruct (owns_nil _ _ Ho1) as [-> ->]. done.
  - destruct (pop_owns stack h self (x :: xs) Ho) as (s1 & h1 & Hp & Ho1).
    rewrite bind_assoc, (bind_Ok _ _ _ _ _ Hp). simpl.
    pose proof (IH f h1 s1 Ho1 ltac:(lia)) as He. unfold into_iter in He |- *.
    rewrite bind_ret_l. simpl. by rewrite (bind_Ok _ _ _ _ _ He).
Qed.

(** The heap implementation satisfies the contract of [FifoSpec], with
    exclusive ownership as well-formedness and [abs] as abstraction, so
    the interface's client theorems ([FifoSpec.run_ops_model]) apply to
    it. *)
Lemma heap_fifo_laws : @FifoLaws (option (heap T * List T)) T (@heap_fifo T stack).
Proof.
  refine {| fq_wf := heap_wf; fq_contents := heap_contents |};
    unfold heap_wf, heap_contents.
  - exists []. apply new_owns.
  - done.
  - intros x [[h self]|] Hq; [|done]. destruct Hq as [xs Ho]. simpl.
    destruct (push_owns stack h self xs x Ho) as (s1 & h1 & Hp & Ho1). rewrite Hp. simpl. eauto.
  - intros x [[h self]|] Hq; [|done]. destruct Hq as [xs Ho]. simpl.
    destruct (push_owns stack h self xs x Ho) as (s1 & h1 & Hp & Ho1). rewrite Hp. simpl.
    by rewrite (owns_abs _ _ _ Ho1), (owns_abs _ _ _ Ho).
  - intros [[h self]|] Hq; [|done]. destruct Hq as [xs Ho]. simpl.
    destruct (pop_owns stack h self xs Ho) as (s1 & h1 & Hp & Ho1). rewrite Hp. simpl. eauto.
  - intros [[h self]|] Hq; [|done]. destruct Hq as [xs Ho]. simpl.
    destruct (pop_owns stack h self xs Ho) as (s1 & h1 & Hp & Ho1). rewrite Hp. simpl.
    by rewrite (owns_abs _ _ _ Ho).
  - intros [[h self]|] Hq; [|done]. destruct Hq as [xs Ho]. simpl.
    destruct (pop_owns stack h self xs Ho) as (s1 & h1 & Hp & Ho1). rewrite Hp. simpl.
    by rewrite (owns_abs _ _ _ Ho1), (owns_abs _ _ _ Ho).
  - intros [[h self]|] Hq; [|done]. destruct Hq as [xs Ho]. simpl.
    by rewrite (peek_value_owns _ _ _ Ho), (owns_abs _ _ _ Ho).
Defined.

(** C8: [peek] reports the element the next [pop] returns, and reading
    through its reference changes nothing (the spec's P5). *)
Theorem peek_then_pop h self xs :
  owns h self xs ->
  exists self' h',
    (let* v := peek_value self in
     let* '(r, s) := pop stack self in ret (v, r, s)) h
    = Ok (hd_error xs, hd_error xs, self') h' /\ owns h' self' (tl xs).
Proof.
  intros Ho. destruct (pop_owns stack h self xs Ho) as (s1 & h1 & Hp & Ho1).
  exists s1, h1. rewrite (bind_Ok _ _ _ _ _ (peek_value_owns _ _ _ Ho)).
  by rewrite (bind_Ok _ _ _ _ _ Hp).
Qed.

(** The unit test [basics] passes: every [assert_eq!] holds, no
    memory fault occurs, and the list's destructor leaves an empty
    heap, whatever the stack size. *)
Theorem basics_passes : basics stack ∅ = Ok tt ∅.
Proof. destruct stack; vm_compute; reflexivity. Qed.
End Theorems.
