(* ===== verification/SepIter.v ===== *)
(** * SepIter: separation-logic specifications of the destructor and of
    the consuming iterator

    The triples of [SepLogic] for the remaining consumers of the chain.
    [take_next] and the drop glue of a box whose [next] is [None] need
    only their node. [heap_size] reads the size of the whole heap, which
    is at least that of any part. The loop of [Drop::drop] is specified
    by induction on the segment it has still to free ([drop_loop_triple]),
    with the stack holding at least one drop-glue frame. So
    [List::drop] on a queue frees exactly the queue's nodes and nothing
    else of the heap ([List_drop_spec]). [drain] of [k] iterations of
    [IntoIter::next] returns the first [k] elements and leaves a queue
    of the rest ([drain_triple]). Dropping the iterator afterwards frees
    the rest ([into_iter_take_drop]): a [for] loop that stops early
    leaks nothing. *)

From S2P Require Import Prelude Memory Chain Fifth SepLogic SepSpec Drop Refinement.

Section Rules.
Context {T : Type}.
Implicit Types (P : hprop T) (h : heap T).

Lemma triple_take_next l (n : Node T) :
  triple (hpts l n) (take_next l)
    (fun lk => hpure (lk = next n) ⋆ hpts l (mkNode (elem n) None)).
Proof.
  eapply triple_bind; [apply triple_load|]. intros v. apply triple_pure. intros ->.
  eapply triple_bind; [apply triple_write_next|]. intros u.
  apply triple_ret. by apply hpure_intro.
Qed.

(** The drop glue of a box whose [next] was taken frees that box. *)
Lemma triple_drop_box d l (e : T) :
  triple (hpts l (mkNode e None)) (drop_link (S d) (Some l)) (fun _ => hemp).
Proof.
  eapply triple_bind; [apply triple_load|]. intros v. apply triple_pure. intros ->.
  eapply triple_bind; [apply triple_drop_None|]. intros u. apply triple_dealloc.
Qed.

Lemma triple_heap_size P : triple P heap_size (fun k h => P h /\ size h <= k).
Proof.
  intros h hf Hd Hp. exists (size (h ∪ hf)), h. split_and!; [done|done|done|].
  apply map_subseteq_size, map_union_subseteq_l.
Qed.
End Rules.

Section Specs.
Context {T : Type} (stack : nat).
Implicit Types (ns : list (loc * T)) (xs : list T) (self : List T) (h : heap T).

(** The loop of [Drop::drop] frees the segment it starts on. *)
Lemma drop_loop_triple ns cur fuel :
  1 <= stack -> length ns <= fuel ->
  triple (lseg cur None ns) (drop_loop stack fuel cur) (fun _ => hemp).
Proof.
  intros Hs. revert cur fuel. induction ns as [|[l x] ns IH]; intros cur fuel Hf; simpl lseg.
  - apply triple_pure_only. intros ->. destruct fuel; apply triple_ret, himpl_refl.
  - apply triple_exists. intros nx. apply triple_pure. intros ->.
    destruct fuel as [|f]; [simpl in Hf; lia|]. destruct stack as [|d] eqn:Hd; [lia|].
    cbn [drop_loop]. rewrite <- Hd.
    eapply triple_bind.
    { eapply triple_conseq; [apply triple_frame, triple_take_next|apply himpl_refl|].
      intros lk. apply hsep_assoc_l. }
    intros lk. apply triple_pure. cbn [next elem]. intros ->.
    eapply triple_bind.
    { eapply triple_conseq; [apply triple_frame|apply himpl_refl|intros u; apply himpl_refl].
      rewrite Hd. apply triple_drop_box. }
    intros u. rewrite Hd. eapply triple_conseq; [apply IH; simpl in Hf; lia| |intros v; apply himpl_refl].
    intros h Hh. exact (proj1 (hsep_emp_l _ _) Hh).
Qed.

(** [List::drop] on a segment from [head] to [None]. *)
Lemma List_drop_lseg self ns :
  1 <= stack ->
  triple (lseg (head self) None ns) (List_drop stack self)
    (fun s => hpure (s = mkList None (tail self)) ⋆ hemp).
Proof.
  intros Hs. unfold List_drop. eapply triple_bind; [apply triple_heap_size|]. intros n.
  apply (triple_pure_pre (length ns <= n)).
  { intros h [Hl Hn]. apply lseg_chain in Hl as [Hc _].
    pose proof (chain_length_le _ _ _ Hc). lia. }
  intros Hn. eapply triple_bind.
  { eapply triple_conseq; [apply (drop_loop_triple ns); lia|intros h [Hl _]; exact Hl|].
    intros u. apply himpl_refl. }
  intros u. unfold default_drop. cbn [head].
  eapply triple_bind; [apply triple_drop_None|]. intros u'.
  apply triple_ret. by apply hpure_intro.
Qed.

(** C23: The separation-logic specification of the destructor: with one
    drop-glue frame of stack, dropping a queue holding [xs] never
    faults, frees exactly the queue's nodes, and leaves every other
    part of the heap as it was (by the frame rule). *)
Theorem List_drop_spec self xs :
  1 <= stack ->
  triple (queue self xs) (List_drop stack self)
    (fun s => hpure (s = mkList None (tail self)) ⋆ hemp).
Proof.
  intros Hs. eapply triple_conseq; [|apply queue_lseg|intros s; apply himpl_refl].
  apply triple_exists. intros ns. by apply List_drop_lseg.
Qed.

(** [k] iterations of [IntoIter::next] on a queue return its first [k]
    elements and leave a queue of the rest. *)
Lemma drain_triple k self xs :
  triple (queue self xs) (drain stack k (into_iter self))
    (fun p => hpure (p.1 = take k xs) ⋆ queue (into_list p.2) (drop k xs)).
Proof.
  revert self xs. induction k as [|k IH]; intros self xs; cbn [drain].
  - apply triple_ret. by apply hpure_intro.
  - unfold into_iter_next. cbn [into_list into_iter].
    eapply (triple_bind _ (fun p => hpure (p.1 = hd_error xs) ⋆ queue (into_list p.2) (tl xs))).
    { eapply triple_bind; [apply pop_triple|]. intros [r q]. apply triple_ret, himpl_refl. }
    intros [r [q]]. apply triple_pure. cbn [fst snd into_list]. intros ->.
    destruct xs as [|x xs]; cbn [hd_error tl].
    + apply triple_ret. by apply hpure_intro.
    + eapply triple_bind; [apply IH|]. intros [ys it]. apply triple_pure. cbn [fst]. intros ->.
      apply triple_ret. by apply hpure_intro.
Qed.

(** C24: Composition of [IntoIter] and [Drop]: a loop that calls
    [IntoIter::next] at most [k] times and then drops the iterator
    returns the first [k] elements, never faults, and frees every node
    of the queue, the ones it popped and the ones it left; the rest of
    the heap is untouched. *)
Theorem into_iter_take_drop k self xs :
  1 <= stack ->
  triple (queue self xs)
    (let* '(ys, it) := drain stack k (into_iter self) in IntoIter_drop stack it ;; ret ys)
    (fun ys => hpure (ys = take k xs) ⋆ hemp).
Proof.
  intros Hs. eapply triple_bind; [apply drain_triple|]. intros [ys it].
  apply triple_pure. cbn [fst snd]. intros ->.
  eapply triple_bind.
  { eapply triple_conseq; [|apply queue_lseg|intros s; apply himpl_refl].
    apply triple_exists. intros ns. by apply List_drop_lseg. }
  intros s. apply triple_ret. intros h Hh. apply hsep_pure_l in Hh as [_ Hh].
  by apply hpure_intro.
Qed.
End Specs.
