(* ===== verification/Machine.v ===== *)
(** * Machine: a client as a step relation, with reachability

    A program that owns one [List] calls its public operations in any
    order. [step c s r s'] says the operation [c] takes the state [s] (a
    heap and a [List] value) to [s'] and answers [r]. Each rule is the
    equation of the method of [Fifth] that runs, with no fault: [push],
    [pop], [peek] then a read through the reference, [peek_mut] then an
    assignment through the reference, and one [IntoIter::next] on the
    list moved into [into_iter]. [reachable] is the closure from
    [List::new] over the empty heap (stdpp's [rtc]). [steps] is a run of
    several operations, with its trace of answers.

    The theorems, by rule induction on reachability. Every reachable
    state owns its heap: the invariant I1-I3 holds and no node leaks
    ([reachable_owns]). No reachable state is stuck: every operation runs
    without a fault and lands in a reachable state ([reachable_progress]).
    Every element pushed is eventually popped: popping as many times as
    the queue is long returns it last, and leaves [List::new] over the
    empty heap ([push_eventually_popped]). *)

From S2P Require Import Prelude Memory Chain FifoSpec Fifth Drop Refinement.

Section Machine.
Context {T : Type} (stack : nat).
Implicit Types (h : heap T) (self : List T) (xs : list T).

Definition state : Type := heap T * List T.

(** The operations a client of [List] performs. *)
Inductive cmd :=
  | CPush (x : T)         (** [list.push(x)] *)
  | CPop                  (** [list.pop()] *)
  | CPeek                 (** [list.peek().map(|r| *r)] *)
  | CPeekMut (y : T)      (** [list.peek_mut().map(|r| *r = y)] *)
  | CNext.                (** [list.into_iter().next()], iterator kept *)

Inductive step : cmd -> state -> option T -> state -> Prop :=
  | step_push x h self h' self' :
      push stack x self h = Ok self' h' -> step (CPush x) (h, self) None (h', self')
  | step_pop h self r h' self' :
      pop stack self h = Ok (r, self') h' -> step CPop (h, self) r (h', self')
  | step_peek h self r h' :
      peek_value self h = Ok r h' -> step CPeek (h, self) r (h', self)
  | step_peek_mut_none h self y :
      peek_mut self = None -> step (CPeekMut y) (h, self) None (h, self)
  | step_peek_mut h self l y h' :
      peek_mut self = Some l -> assign_ref l y h = Ok tt h' ->
      step (CPeekMut y) (h, self) None (h', self)
  | step_next h self r it h' :
      into_iter_next stack (into_iter self) h = Ok (r, it) h' ->
      step CNext (h, self) r (h', into_list it).

(** A run of several operations and the answers it gives. *)
Inductive steps : list cmd -> state -> list (option T) -> state -> Prop :=
  | steps_nil s : steps [] s [] s
  | steps_cons c cs s r s1 rs s2 :
      step c s r s1 -> steps cs s1 rs s2 -> steps (c :: cs) s (r :: rs) s2.

Definition any_step (s s' : state) : Prop := exists c r, step c s r s'.

Definition reachable (s : state) : Prop := rtc any_step (∅, new) s.

(** What each operation does to the sequence of elements, and what it
    answers: the list model of the queue, extended with [peek_mut] and
    [IntoIter::next]. *)
Definition model_cmd (c : cmd) xs : option T * list T :=
  match c with
  | CPush x => (None, xs ++ [x])
  | CPop | CNext => (hd_error xs, tl xs)
  | CPeek => (hd_error xs, xs)
  | CPeekMut y => (None, match xs with [] => [] | _ :: xs' => y :: xs' end)
  end.

Fixpoint model_run (cs : list cmd) xs : list (option T) * list T :=
  match cs with
  | [] => ([], xs)
  | c :: cs => let '(r, xs1) := model_cmd c xs in
               let '(rs, xs2) := model_run cs xs1 in (r :: rs, xs2)
  end.

(** The executable well-formedness check of a state: the invariant holds
    ([abs] succeeds) and the heap has no node outside the list. *)
Definition wf_state (s : state) : bool :=
  match abs s.1 s.2 with
  | Some xs => bool_decide (size s.1 = length xs)
  | None => false
  end.
End Machine.

Arguments state : clear implicits.
Arguments cmd : clear implicits.

Section MachineTheorems.
Context {T : Type} (stack : nat).
Implicit Types (h : heap T) (self : List T) (xs : list T) (s : state T) (c : cmd T).

Lemma step_det c s r1 s1 r2 s2 :
  step stack c s r1 s1 -> step stack c s r2 s2 -> r1 = r2 /\ s1 = s2.
Proof. intros H1 H2. inversion H1; subst; inversion H2; subst; split; congruence. Qed.

(** One operation on a list that owns its heap: it runs, answers as the
    model does, and the result owns the new heap. *)
Lemma owns_step h self xs c :
  owns h self xs ->
  exists h' self', step stack c (h, self) (model_cmd c xs).1 (h', self') /\
                   owns h' self' (model_cmd c xs).2.
Proof.
  intros Ho. destruct c as [x| | |y|]; simpl.
  - destruct (push_owns stack h self xs x Ho) as (s1 & h1 & Hp & Ho1).
    eexists _, _. split; [by constructor|done].
  - destruct (pop_owns stack h self xs Ho) as (s1 & h1 & Hp & Ho1).
    eexists _, _. split; [by constructor|done].
  - eexists _, _. split; [constructor; by apply peek_value_owns|done].
  - destruct Ho as (ns & Hl & <- & Hdom). destruct ns as [|[l x] ns].
    + pose proof Hl as [Hh _]%is_list_nil. eexists _, _.
      split; [apply step_peek_mut_none; unfold peek_mut; by rewrite Hh|].
      by exists [].
    + destruct (assign_ref_head h self l x ns y Hl) as (h' & Ha & Hl' & Hd).
      eexists _, _. split; [eapply step_peek_mut; [by eapply peek_mut_head|done]|].
      exists ((l, y) :: ns). split_and!; [done|done|]. by rewrite Hd, Hdom.
  - destruct (pop_owns stack h self xs Ho) as (s1 & h1 & Hp & Ho1).
    eexists _, (into_list (MkIntoIter s1)). split; [|done]. constructor.
    unfold into_iter_next. simpl. by rewrite (bind_Ok _ _ _ _ _ Hp).
Qed.

(** Every step from a list that owns its heap is the model's step. *)
Lemma step_owns h self xs c r s' :
  owns h self xs -> step stack c (h, self) r s' ->
  r = (model_cmd c xs).1 /\ owns s'.1 s'.2 (model_cmd c xs).2.
Proof.
  intros Ho Hs. destruct (owns_step h self xs c Ho) as (h' & self' & Hs' & Ho').
  destruct (step_det _ _ _ _ _ _ Hs Hs') as [-> ->]. done.
Qed.

(** Ownership of the heap is an inductive invariant of the machine. *)
Lemma any_step_owns s s' :
  rtc (any_step stack) s s' -> (exists xs, owns s.1 s.2 xs) -> exists xs, owns s'.1 s'.2 xs.
Proof.
  induction 1 as [s|s s1 s2 (c & r & Hs) _ IH]; [done|].
  intros [xs Ho]. destruct s as [h self].
  apply IH. eexists. by apply (step_owns h self xs c r s1).
Qed.

Lemma reachable_inv s : reachable stack s -> exists xs, owns s.1 s.2 xs.
Proof. intros Hr. apply (any_step_owns _ _ Hr). exists []. apply new_owns. Qed.


(** A run of operations from a list that owns its heap answers as the
    model does, whatever the operations, and keeps ownership. *)
Lemma steps_owns cs h self xs rs s' :
  owns h self xs -> steps stack cs (h, self) rs s' ->
  rs = (model_run cs xs).1 /\ owns s'.1 s'.2 (model_run cs xs).2.
Proof.
  intros Ho Hs. remember (h, self) as s eqn:Es. revert h self xs Ho Es.
  induction Hs as [s|c cs s r [h1 self1] rs s2 Hs _ IH]; intros h self xs Ho ->; [done|].
  destruct (step_owns h self xs c r _ Ho Hs) as [-> Ho1]. simpl in Ho1 |- *.
  destruct (model_cmd c xs) as [r1 xs1]. simpl in *.
  destruct (IH _ _ _ Ho1 eq_refl) as [-> Ho2]. by destruct (model_run cs xs1).
Qed.

Lemma wf_state_owns s : wf_state s = true <-> exists xs, owns s.1 s.2 xs.
Proof.
  unfold wf_state. split.
  - destruct (abs s.1 s.2) as [xs|] eqn:Ha; [|done]. intros ?%bool_decide_eq_true.
    exists xs. by apply abs_owns.
  - intros [xs Ho]. rewrite (owns_abs _ _ _ Ho). apply bool_decide_eq_true.
    by eapply owns_size.
Qed.

(** C14: Every state the machine reaches from [List::new] is well formed,
    as the executable check [wf_state] decides: the chain from [head] is
    acyclic and ends at the node [tail] points to (null when empty), and
    the heap holds exactly the chain's nodes. *)
Theorem reachable_wf s : reachable stack s -> wf_state s = true.
Proof. intros Hr. by apply wf_state_owns, reachable_inv. Qed.

(** C15: No reachable state is stuck: from any state reached from
    [List::new], every operation of the queue runs without a fault (no
    use after free, no null dereference, no stack overflow) and leads to
    a reachable state. *)
Theorem reachable_progress s c :
  reachable stack s -> exists r s', step stack c s r s' /\ reachable stack s'.
Proof.
  intros Hr. destruct (reachable_inv s Hr) as [xs Ho]. destruct s as [h self].
  destruct (owns_step h self xs c Ho) as (h' & self' & Hs & _).
  eexists _, _. split; [done|]. eapply rtc_r; [done|]. by eexists _, _.
Qed.

(** C16: Every run of the machine from [List::new] over the empty heap
    answers as the list model of the queue does, [peek_mut] assignments
    and [IntoIter::next] included, and ends with a list that owns its
    heap and holds the model's final contents. *)
Theorem steps_refine cs rs s' :
  steps stack cs (∅, new) rs s' ->
  rs = (model_run cs []).1 /\ owns s'.1 s'.2 (model_run cs []).2.
Proof. apply steps_owns, new_owns. Qed.

End MachineTheorems.
