(* ===== verification/Compose.v ===== *)
(** * Compose: two queues in one heap

    A program rarely owns one list alone. Here two [List] values share
    one heap, and a client program says which list each call goes to.
    [exec_op] is one call of [Fifth] (a [push], a [pop], or a [peek] with
    a read through the reference), and [exec_ops2] runs an interleaving
    of calls on the two lists. The invariant [owns2] splits the heap:
    each list owns a chain, the chains are disjoint, and together they
    are the whole heap. The frame lemmas say what each method leaves
    alone. [push] touches only its own last node and the fresh one, and
    [pop] frees only its head node. The main theorem: any interleaving
    from two [List::new] over the empty heap runs without a fault, and
    each list ends with exactly what its own calls alone would give it,
    as if the other list did not exist. *)

From S2P Require Import Prelude Memory Chain FifoSpec Fifth Refinement.

Inductive side := Left | Right.

#[export] Instance side_eq_dec : EqDecision side.
Proof. solve_decision. Defined.

Section Compose.
Context {T : Type} (stack : nat).
Implicit Types (h : heap T) (self : List T) (xs ys : list T) (ns : list (loc * T)).

(** One call on one list and its answers ([push] answers nothing). *)
Definition exec_op (o : op T) self : M T (list (option T) * List T) :=
  match o with
  | Push x => let* self := push stack x self in ret ([], self)
  | Pop => let* '(r, self) := pop stack self in ret ([r], self)
  | Peek => let* r := peek_value self in ret ([r], self)
  end.

Fixpoint exec_ops2 (ops : list (side * op T)) (a b : List T)
    : M T (list (option T) * (List T * List T)) :=
  match ops with
  | [] => ret ([], (a, b))
  | (Left, o) :: ops =>
      let* '(r, a) := exec_op o a in
      let* '(rs, ab) := exec_ops2 ops a b in ret (r ++ rs, ab)
  | (Right, o) :: ops =>
      let* '(r, b) := exec_op o b in
      let* '(rs, ab) := exec_ops2 ops a b in ret (r ++ rs, ab)
  end.

(** The list model of one call. *)
Definition model_op (o : op T) xs : list (option T) * list T :=
  match o with
  | Push x => ([], xs ++ [x])
  | Pop => ([hd_error xs], tl xs)
  | Peek => ([hd_error xs], xs)
  end.

Fixpoint model_ops2 (ops : list (side * op T)) xs ys
    : list (option T) * (list T * list T) :=
  match ops with
  | [] => ([], (xs, ys))
  | (Left, o) :: ops =>
      let '(r, xs) := model_op o xs in
      let '(rs, zs) := model_ops2 ops xs ys in (r ++ rs, zs)
  | (Right, o) :: ops =>
      let '(r, ys) := model_op o ys in
      let '(rs, zs) := model_ops2 ops xs ys in (r ++ rs, zs)
  end.

(** The calls of a program that go to one list. *)
Definition only (s : side) (ops : list (side * op T)) : list (op T) :=
  (filter (fun p => p.1 = s) ops).*2.

(** The two lists own disjoint chains that make up the whole heap. *)
Definition owns2 h (a b : List T) xs ys : Prop :=
  exists na nb,
    is_list h a na /\ na.*2 = xs /\ is_list h b nb /\ nb.*2 = ys /\
    (list_to_set na.*1 : gset loc) ## list_to_set nb.*1 /\
    dom h = list_to_set na.*1 ∪ list_to_set nb.*1.
End Compose.

Section Frame.
Context {T : Type} (stack : nat).
Implicit Types (h : heap T) (self : List T) (xs ys : list T) (ns : list (loc * T)).

(** [push] changes no location but the fresh one and the nodes of its
    own chain. *)
Lemma push_frame h self ns x self' h' :
  is_list h self ns -> push stack x self h = Ok self' h' ->
  forall k, k ∉ ns.*1 -> k ≠ fresh (dom h) -> h' !! k = h !! k.
Proof.
  intros Hl Hp k Hk Hf. destruct (decide (ns = [])) as [->|Hne].
  - rewrite (push_empty stack h self x Hl) in Hp. injection Hp as _ <-.
    by simpl_heap.
  - destruct (push_nonempty stack h self ns x Hl Hne) as (t & y & Ht & _ & Hp').
    rewrite Hp' in Hp. injection Hp as _ <-.
    assert (t ∈ ns.*1) by (apply last_Some_elem_of; destruct Hl as [_ <-]; done).
    assert (k ≠ t) by (intros ->; done). by simpl_heap.
Qed.

(** A chain that avoids a fresh location and the chain of a list being
    pushed survives the push. *)
Lemma push_keeps_chain h self ns x self' h' lk ms :
  is_list h self ns -> push stack x self h = Ok self' h' ->
  chain h lk ms -> (list_to_set ns.*1 : gset loc) ## list_to_set ms.*1 ->
  chain h' lk ms.
Proof.
  intros Hl Hp Hc Hd. apply (chain_frame _ _ _ _ Hc). intros k Hk.
  apply (push_frame h self ns x self' h' Hl Hp).
  - intros Hin. apply (Hd k); by apply elem_of_list_to_set.
  - intros ->. apply (is_fresh (dom h)). by eapply chain_in_dom.
Qed.

Lemma owns2_swap h a b xs ys : owns2 h a b xs ys -> owns2 h b a ys xs.
Proof.
  intros (na & nb & Ha & Hx & Hb & Hy & Hd & Hdom).
  exists nb, na. split_and!; try done. by rewrite Hdom, (union_comm_L (list_to_set na.*1)).
Qed.

(** One call on the left list: it runs without a fault, answers as the
    model does, and leaves the right list and the split of the heap
    intact. *)
Lemma exec_op_owns2 o h a b xs ys :
  owns2 h a b xs ys ->
  exists a' h', exec_op stack o a h = Ok ((model_op o xs).1, a') h' /\
                owns2 h' a' b (model_op o xs).2 ys.
Proof.
  intros (na & nb & Ha & <- & Hb & <- & Hd & Hdom). destruct o as [x| |]; simpl.
  - destruct (push_is_list stack h a na x Ha) as (a' & h' & Hp & Ha' & Hd').
    exists a', h'. rewrite (bind_Ok _ _ _ _ _ Hp). split; [done|].
    assert (fresh (dom h) ∉ nb.*1).
    { intros Hin. apply (is_fresh (dom h)). by eapply chain_in_dom, Hin; destruct Hb. }
    exists (na ++ [(fresh (dom h), x)]), nb. rewrite !fmap_app, list_to_set_app_L.
    do 2 (split; [done|]).
    split; [split; [apply (push_keeps_chain h a na x a' h'); [done|done|apply Hb|done]|apply Hb]|].
    split; [done|]. split.
    + assert (fresh (dom h) ∉ (list_to_set nb.*1 : gset loc))
        by by rewrite elem_of_list_to_set.
      simpl. set_solver.
    + rewrite Hd', Hdom. set_solver.
  - destruct na as [|[l x] na].
    + exists a, h. rewrite (bind_Ok _ _ _ _ _ (pop_empty stack h a Ha)).
      split; [done|]. by exists [], nb.
    + destruct (pop_cons stack h a l x na Ha) as (a' & Hp & Ha').
      exists a', (delete l h). rewrite (bind_Ok _ _ _ _ _ Hp). split; [done|].
      pose proof (chain_NoDup _ _ _ (proj1 Ha)) as Hnd.
      apply NoDup_cons in Hnd as [Hnin _].
      assert (l ∉ nb.*1).
      { intros Hin. apply (Hd l); [set_solver|by apply elem_of_list_to_set]. }
      exists na, nb. do 2 (split; [done|]).
      split; [split; [apply chain_delete_other; [apply Hb|done]|apply Hb]|].
      split; [done|]. split.
      * set_solver.
      * rewrite dom_delete_L, Hdom. simpl. set_solver.
  - rewrite (bind_Ok _ _ _ _ _ (peek_read h a na.*2 ltac:(by exists na))).
    eexists _, _. split; [done|]. by exists na, nb.
Qed.
End Frame.

Section Runs.
Context {T : Type} (stack : nat).
Implicit Types (h : heap T) (xs ys : list T).

(** Simulation of two independent list models by two lists in one
    heap. *)
Lemma exec_ops2_owns2 ops h a b xs ys :
  owns2 h a b xs ys ->
  exists a' b' h',
    exec_ops2 stack ops a b h = Ok ((model_ops2 ops xs ys).1, (a', b')) h' /\
    owns2 h' a' b' (model_ops2 ops xs ys).2.1 (model_ops2 ops xs ys).2.2.
Proof.
  revert h a b xs ys. induction ops as [|[[] o] ops IH]; intros h a b xs ys Ho; simpl.
  - by eexists _, _, _.
  - destruct (exec_op_owns2 stack o h a b xs ys Ho) as (a1 & h1 & He & Ho1).
    rewrite (bind_Ok _ _ _ _ _ He). destruct (model_op o xs) as [r xs1]. simpl in *.
    destruct (IH _ _ _ _ _ Ho1) as (a2 & b2 & h2 & He2 & Ho2).
    rewrite (bind_Ok _ _ _ _ _ He2). destruct (model_ops2 ops xs1 ys). eauto.
  - destruct (exec_op_owns2 stack o h b a ys xs (owns2_swap _ _ _ _ _ Ho))
      as (b1 & h1 & He & Ho1%owns2_swap).
    rewrite (bind_Ok _ _ _ _ _ He). destruct (model_op o ys) as [r ys1]. simpl in *.
    destruct (IH _ _ _ _ _ Ho1) as (a2 & b2 & h2 & He2 & Ho2).
    rewrite (bind_Ok _ _ _ _ _ He2). destruct (model_ops2 ops xs ys1). eauto.
Qed.

(** The model of one call agrees with the [FifoSpec] list model. *)
Lemma model_op_ops o ops xs :
  (model_ops (o :: ops) xs).2 = (model_ops ops (model_op o xs).2).2.
Proof.
  unfold model_ops. destruct o; simpl; [done| |].
  - by destruct (run_ops ops (tl xs)).
  - by destruct (run_ops ops xs).
Qed.

(** In the two-list model, each list ends with what its own calls give. *)
Lemma model_ops2_split ops xs ys :
  (model_ops2 ops xs ys).2 =
  ((model_ops (only Left ops) xs).2, (model_ops (only Right ops) ys).2).
Proof.
  revert xs ys. induction ops as [|[[] o] ops IH]; intros xs ys; [done| |];
    unfold only in *.
  - rewrite (filter_cons_True _ (Left, o)), (filter_cons_False _ (Left, o)) by done. simpl. rewrite model_op_ops.
    destruct (model_op o xs) as [r xs1]. specialize (IH xs1 ys).
    destruct (model_ops2 ops xs1 ys). simpl in *. by rewrite IH.
  - rewrite (filter_cons_False _ (Right, o)), (filter_cons_True _ (Right, o)) by done. simpl. rewrite model_op_ops.
    destruct (model_op o ys) as [r ys1]. specialize (IH xs ys1).
    destruct (model_ops2 ops xs ys1). simpl in *. by rewrite IH.
Qed.

Lemma new_owns2 : owns2 (∅ : heap T) new new [] [].
Proof.
  exists [], []. split_and!; try by apply is_list_nil.
  all: set_solver.
Qed.

(** C18: Composition of two queues in one heap. Any interleaving of
    [push], [pop] and [peek] calls on two lists created by [List::new]
    over the empty heap runs without a fault and answers as two
    independent list models do. At the end the two lists own disjoint
    chains that make up the whole heap, and each holds exactly what its
    own calls alone would leave in it. *)
Theorem two_lists_independent (ops : list (side * op T)) :
  exists a b h,
    exec_ops2 stack ops new new ∅ = Ok ((model_ops2 ops [] []).1, (a, b)) h /\
    owns2 h a b (model_ops (only Left ops) []).2 (model_ops (only Right ops) []).2.
Proof.
  destruct (exec_ops2_owns2 ops ∅ new new [] [] new_owns2) as (a & b & h & He & Ho).
  rewrite model_ops2_split in Ho. eauto.
Qed.
End Runs.
