(* ===== verification/Borrow.v ===== *)
(** * Borrow: the aliasing discipline of the spec's section 5

    The methods of [List] take [&self] ([peek]) or [&mut self] ([push],
    [pop], [peek_mut]), and the references that [peek] and [peek_mut]
    return borrow the list. The compiler then forbids any call on the
    list that needs [&mut self] while a borrow is live, and any call at
    all while a mutable borrow is live. This file models that discipline
    for client programs. A program [bprog] names each returned reference.
    [check] is the borrow checker, executable and conservative, written
    from the rules above. [run_b] runs the program on the heap with the
    methods of [Fifth], and a reference is the location the method
    returned.

    The theorems. Soundness: a program the checker accepts never faults
    on a list that owns its heap, and it leaves the list owning its heap
    ([check_sound]). The key invariant is that a live reference is
    always what [peek] of the current list returns, because nothing can
    move [head] while it lives. Necessity: the program the checker
    rejects first, a read through [peek]'s reference after a [pop], reads
    freed memory ([peek_pop_read_dangles]). *)

From S2P Require Import Prelude Memory Chain Fifth.

(** Names of reference variables in a client program. *)
Definition rname := nat.

(** The kind of a live borrow. *)
Inductive bkind := Shared | Mut.

#[export] Instance bkind_eq_dec : EqDecision bkind.
Proof. solve_decision. Defined.

(** The borrows live at a point of the program. *)
Abbreviation borrows := (gmap rname bkind).

(** The values of the reference variables: what [peek] or [peek_mut]
    returned. *)
Abbreviation renv := (gmap rname (option ElemRef)).

Section Borrow.
Context {T : Type} (stack : nat).
Implicit Types (h : heap T) (self : List T).

(** A statement of a client program. *)
Inductive bcmd :=
  | BPush (x : T)              (** [list.push(x)] *)
  | BPop                       (** [list.pop()] *)
  | BPeek (r : rname)          (** [let r = list.peek();] *)
  | BPeekMut (r : rname)       (** [let r = list.peek_mut();] *)
  | BRead (r : rname)          (** [r.map(|v| *v)] *)
  | BWrite (r : rname) (y : T) (** [r.map(|v| *v = y)] *)
  | BEnd (r : rname).          (** the last use of [r]: its borrow ends *)

Definition bprog := list bcmd.

(** The borrow checker: [&mut self] calls need no live borrow, [&self]
    calls no live mutable borrow; a reference is used only while its
    borrow lives, and written only if it is mutable. *)
Fixpoint check (bs : borrows) (p : bprog) : bool :=
  match p with
  | [] => true
  | c :: p =>
      match c with
      | BPush _ | BPop => bool_decide (bs = ∅) && check bs p
      | BPeek r =>
          bool_decide (bs !! r = None) && bool_decide (map_Forall (fun _ k => k = Shared) bs)
          && check (<[r := Shared]> bs) p
      | BPeekMut r => bool_decide (bs = ∅) && check (<[r := Mut]> bs) p
      | BRead r => bool_decide (is_Some (bs !! r)) && check bs p
      | BWrite r _ => bool_decide (bs !! r = Some Mut) && check bs p
      | BEnd r => bool_decide (is_Some (bs !! r)) && check (delete r bs) p
      end
  end.

(** Running a client program; the answers are those of [pop] and of the
    reads. A variable never bound reads as [None]. *)
Fixpoint run_b (p : bprog) (env : renv) self : M T (list (option T) * List T) :=
  match p with
  | [] => ret ([], self)
  | c :: p =>
      match c with
      | BPush x => let* self := push stack x self in run_b p env self
      | BPop =>
          let* '(r, self) := pop stack self in
          let* '(rs, self) := run_b p env self in ret (r :: rs, self)
      | BPeek r => run_b p (<[r := peek self]> env) self
      | BPeekMut r => run_b p (<[r := peek_mut self]> env) self
      | BRead r =>
          let* v := match mjoin (env !! r) with
                    | Some l => let* v := read_ref l in ret (Some v)
                    | None => ret None
                    end in
          let* '(rs, self) := run_b p env self in ret (v :: rs, self)
      | BWrite r y =>
          match mjoin (env !! r) with
          | Some l => assign_ref l y ;; run_b p env self
          | None => run_b p env self
          end
      | BEnd r => run_b p (delete r env) self
      end
  end.
End Borrow.

Arguments bcmd : clear implicits.
Arguments bprog : clear implicits.

Section Soundness.
Context {T : Type} (stack : nat).
Implicit Types (h : heap T) (self : List T) (xs : list T) (bs : borrows) (env : renv).

(** Every live reference is what [peek] of the current list returns. *)
Definition refs_ok bs env self : Prop :=
  forall r k, bs !! r = Some k -> env !! r = Some (peek self).

Lemma refs_ok_empty env self : refs_ok ∅ env self.
Proof. intros r k. by rewrite lookup_empty. Qed.

Lemma refs_ok_insert bs env self r k :
  refs_ok bs env self -> refs_ok (<[r := k]> bs) (<[r := peek self]> env) self.
Proof.
  intros Hok r' k'. destruct (decide (r = r')) as [<-|Hne].
  - by rewrite !lookup_insert_eq.
  - rewrite !lookup_insert_ne by done. apply Hok.
Qed.

Lemma refs_ok_delete bs env self r :
  refs_ok bs env self -> refs_ok (delete r bs) (delete r env) self.
Proof.
  intros Hok r' k'. destruct (decide (r = r')) as [<-|Hne].
  - by rewrite lookup_delete_eq.
  - rewrite !lookup_delete_ne by done. apply Hok.
Qed.

(** [peek] and [peek_mut] return the same location. *)
Lemma peek_mut_peek self : peek_mut self = peek self.
Proof. done. Qed.

(** Writing through the head reference of a list that owns its heap. *)
Lemma owns_assign_head h self xs l y :
  owns h self xs -> peek self = Some l ->
  exists h', assign_ref l y h = Ok tt h' /\ owns h' self (y :: tl xs).
Proof.
  intros (ns & Hl & <- & Hdom) Hp. destruct ns as [|[l' x] ns].
  - apply is_list_nil in Hl as [Hh _]. unfold peek in Hp. by rewrite Hh in Hp.
  - assert (l' = l) as ->.
    { pose proof (peek_mut_head self h l' x ns Hl) as Hm.
      rewrite peek_mut_peek, Hp in Hm. by injection Hm. }
    destruct (assign_ref_head h self l x ns y Hl) as (h' & Ha & Hl' & Hd).
    exists h'. split; [done|]. exists ((l, y) :: ns). split_and!; [done|done|].
    by rewrite Hd, Hdom.
Qed.

(** A checked program from a state whose live references are [peek] of
    the list runs without a fault and keeps ownership. *)
Lemma check_run p bs env self h xs :
  check bs p = true -> refs_ok bs env self -> owns h self xs ->
  exists rs self' h' ys, run_b stack p env self h = Ok (rs, self') h' /\ owns h' self' ys.
Proof.
  revert bs env self h xs.
  induction p as [|c p IH]; intros bs env self h xs Hc Hok Ho; [by eexists _, _, _, _|].
  destruct c as [x| |r|r|r|r y|r]; simpl in Hc |- *;
    repeat match goal with H : _ && _ = true |- _ => apply andb_prop in H as [? ?] end;
    repeat match goal with H : bool_decide _ = true |- _ => apply bool_decide_eq_true in H end.
  - subst bs. destruct (push_owns stack h self xs x Ho) as (s1 & h1 & Hp & Ho1).
    rewrite (bind_Ok _ _ _ _ _ Hp). eapply IH; [done|apply refs_ok_empty|done].
  - subst bs. destruct (pop_owns stack h self xs Ho) as (s1 & h1 & Hp & Ho1).
    rewrite (bind_Ok _ _ _ _ _ Hp).
    destruct (IH ∅ env s1 h1 _ H0 (refs_ok_empty _ _) Ho1) as (rs & s2 & h2 & ys & He & Ho2).
    rewrite (bind_Ok _ _ _ _ _ He). by eexists _, _, _, _.
  - eapply IH; [done|by apply refs_ok_insert|done].
  - rewrite peek_mut_peek. eapply IH; [done|by apply refs_ok_insert|done].
  - destruct H as [k Hk]. rewrite (Hok r k Hk). simpl.
    rewrite (bind_Ok _ _ _ _ _ (peek_read h self xs (owns_repr _ _ _ Ho))).
    destruct (IH bs env self h xs H0 Hok Ho) as (rs & s2 & h2 & ys & He & Ho2).
    rewrite (bind_Ok _ _ _ _ _ He). by eexists _, _, _, _.
  - rewrite (Hok r Mut H). simpl. destruct (peek self) as [l|] eqn:Hp.
    + destruct (owns_assign_head h self xs l y Ho Hp) as (h' & Ha & Ho').
      rewrite (bind_Ok _ _ _ _ _ Ha). eapply IH; [done|done|done].
    + eapply IH; [done|done|done].
  - eapply IH; [done|by apply refs_ok_delete|done].
Qed.

(** C19: Soundness of the borrow discipline. A client program that the
    borrow checker accepts runs without a fault (no use after free, no
    null dereference) on any list that owns its heap, and leaves a list
    that owns its heap. *)
Theorem check_sound p h self xs :
  check ∅ p = true -> owns h self xs ->
  exists rs self' h' ys, run_b stack p ∅ self h = Ok (rs, self') h' /\ owns h' self' ys.
Proof. intros Hc Ho. eapply check_run; [done|apply refs_ok_empty|done]. Qed.

(** C20: The discipline is needed. Reading through the reference [peek]
    returned after a [pop] (a program the checker rejects, as rustc
    does) reads the freed head node: a use after free. *)
Theorem peek_pop_read_dangles h self l x ns :
  is_list h self ((l, x) :: ns) ->
  check ∅ ([BPeek 0; BPop; BRead 0] : bprog T) = false /\
  run_b stack [BPeek 0; BPop; BRead 0] ∅ self h = Fault (UseAfterFree l).
Proof.
  intros Hl. split; [done|]. simpl.
  rewrite <- peek_mut_peek, (peek_mut_head self h l x ns Hl).
  destruct (pop_cons stack h self l x ns Hl) as (s1 & Hp & _).
  rewrite (bind_Ok _ _ _ _ _ Hp). unfold read_ref.
  rewrite lookup_insert_eq. unfold bind. cbv beta.
  cbn [mjoin option_join]. by rewrite (load_dead _ _ (lookup_delete_eq h l)).
Qed.
End Soundness.
