(* ===== verification/Examples.v ===== *)
(** * Examples: the theorems applied to concrete heaps

    A three-node list holding 10, 20, 30 at locations 1, 2, 3, as three
    pushes onto [List::new] lay it out. Each example applies one theorem
    of the development there and discharges its hypotheses by evaluation.
    The invariant and ownership are checked with [abs], and chains with
    [walk]. *)

From S2P Require Import Prelude Memory Chain FifoSpec Fifth SepLogic SepSpec Drop Reference Refinement SepIter Machine Compose Borrow.

Definition h3 : heap nat :=
  <[1%positive := mkNode 10 (Some 2%positive)]>
  (<[2%positive := mkNode 20 (Some 3%positive)]>
   (<[3%positive := mkNode 30 None]> ∅)).

Definition q3 : List nat := mkList (Some 1%positive) (Some 3%positive).

Definition ns3 : list (loc * nat) := [(1%positive, 10); (2%positive, 20); (3%positive, 30)].

(** A malformed heap: a node whose [next] link points to itself. *)
Definition h_cycle : heap nat := {[1%positive := mkNode 10 (Some 1%positive)]}.

Lemma pop_singleton_resets_tail_witness :
  pop 1 (mkList (Some 1%positive) (Some 1%positive)) {[1%positive := mkNode 7 None]}
  = Ok (Some 7, new) (delete 1%positive {[1%positive := mkNode 7 None]}).
Proof. apply pop_singleton_resets_tail. apply is_list_walk; vm_compute; reflexivity. Defined.

Lemma push_repr_witness :
  exists self' h', push 1 40 q3 h3 = Ok self' h' /\ repr h' self' ([10; 20; 30] ++ [40]).
Proof. apply push_repr. apply abs_repr; vm_compute; reflexivity. Defined.

Lemma pop_repr_witness :
  exists self' h', pop 1 q3 h3 = Ok (hd_error [10; 20; 30], self') h' /\
                   repr h' self' (tl [10; 20; 30]).
Proof. apply pop_repr. apply abs_repr; vm_compute; reflexivity. Defined.

Lemma List_drop_no_leak_witness : List_drop 1 q3 h3 = Ok (mkList None (tail q3)) ∅.
Proof. apply (List_drop_no_leak 1 h3 q3 [10; 20; 30]); [lia|]. apply abs_owns; vm_compute; reflexivity. Defined.

Lemma into_iter_drains_witness :
  drain 1 4 (into_iter q3) h3 = Ok ([10; 20; 30], into_iter new) ∅.
Proof. apply into_iter_drains; [apply abs_owns; vm_compute; reflexivity|simpl; lia]. Defined.

Lemma peek_then_pop_witness :
  exists self' h',
    (let* v := peek_value q3 in
     let* '(r, s) := pop 1 q3 in ret (v, r, s)) h3
    = Ok (hd_error [10; 20; 30], hd_error [10; 20; 30], self') h' /\
    owns h' self' (tl [10; 20; 30]).
Proof. apply peek_then_pop. apply abs_owns; vm_compute; reflexivity. Defined.

Lemma peek_mut_assign_witness :
  peek_mut q3 = Some 1%positive /\
  exists h', assign_ref 1%positive 11 h3 = Ok tt h' /\
             is_list h' q3 [(1%positive, 11); (2%positive, 20); (3%positive, 30)] /\ dom h' = dom h3.
Proof. apply (peek_mut_assign h3 q3 1%positive 10). apply is_list_walk; vm_compute; reflexivity. Defined.

Lemma drop_loop_no_fuel_fault_witness :
  drop_loop 1 2 (Some 1%positive) h_cycle <> Fault OutOfFuel.
Proof. apply drop_loop_no_fuel_fault. vm_compute. lia. Defined.

Lemma push_pop_roundtrip_witness :
  (let* s := push 1 40 new in pop 1 s) h3 = Ok (Some 40, new) h3.
Proof. apply push_pop_roundtrip. apply is_list_walk; vm_compute; reflexivity. Defined.

Lemma push_walk_equiv_witness : push_walk 1 40 q3 h3 = push 1 40 q3 h3.
Proof. apply (push_walk_equiv 1 h3 q3 ns3). apply is_list_walk; vm_compute; reflexivity. Defined.

(** Two states of the machine: after [push(10)], and after [push(20)]. *)
Definition st1 : state nat := ({[1%positive := mkNode 10 None]}, mkList (Some 1%positive) (Some 1%positive)).
Definition st2 : state nat :=
  (<[1%positive := mkNode 10 (Some 2%positive)]> {[2%positive := mkNode 20 None]},
   mkList (Some 1%positive) (Some 2%positive)).

Lemma step_st1 : step 1 (CPush 10) (∅, new) None st1.
Proof. apply step_push. vm_compute. reflexivity. Qed.

Lemma step_st2 : step 1 (CPush 20) st1 None st2.
Proof. apply step_push. vm_compute. reflexivity. Qed.

Lemma reachable_st1 : reachable 1 st1.
Proof. eapply rtc_l; [by exists (CPush 10), None; apply step_st1|apply rtc_refl]. Qed.

Lemma reachable_wf_witness : reachable 1 st2 /\ wf_state st2 = true.
Proof.
  assert (reachable 1 st2) as Hr.
  { eapply rtc_r; [apply reachable_st1|by exists (CPush 20), None; apply step_st2]. }
  split; [done|]. by apply (reachable_wf 1).
Defined.

Lemma reachable_progress_witness :
  exists r s', step 1 CPop st1 r s' /\ reachable 1 s'.
Proof. apply reachable_progress, reachable_st1. Defined.

Lemma steps_refine_witness :
  [None; None; Some 11] = (model_run [CPush 10; CPeekMut 11; CNext] []).1 /\
  owns (∅ : heap nat) new (model_run [CPush 10; CPeekMut 11; CNext] []).2.
Proof.
  apply (steps_refine 1 _ _ (∅, new)).
  eapply steps_cons; [apply step_st1|].
  eapply steps_cons; [eapply step_peek_mut; [reflexivity|vm_compute; reflexivity]|].
  eapply steps_cons; [apply step_next; vm_compute; reflexivity|].
  apply steps_nil.
Defined.


(** A borrow-checked client: push, read through [peek], write through
    [peek_mut], pop. *)
Definition bprog1 : bprog nat :=
  [BPush 1; BPeek 0; BRead 0; BEnd 0; BPeekMut 1; BWrite 1 5; BEnd 1; BPop].

Lemma check_sound_witness :
  check ∅ bprog1 = true /\
  exists rs self' h' ys, run_b 1 bprog1 ∅ new ∅ = Ok (rs, self') h' /\ owns h' self' ys.
Proof.
  assert (check ∅ bprog1 = true) as Hc by reflexivity.
  split; [done|]. apply (check_sound 1 bprog1 ∅ new [] Hc). apply new_owns.
Defined.

Lemma peek_pop_read_dangles_witness :
  check ∅ ([BPeek 0; BPop; BRead 0] : bprog nat) = false /\
  run_b 1 [BPeek 0; BPop; BRead 0] ∅ q3 h3 = Fault (UseAfterFree 1%positive).
Proof.
  apply (peek_pop_read_dangles 1 h3 q3 1%positive 10 (tl ns3)).
  apply is_list_walk; vm_compute; reflexivity.
Defined.

(** The three-node list satisfies the queue predicate. *)
Lemma queue_q3 : queue q3 [10; 20; 30] h3.
Proof. apply owns_queue, abs_owns; vm_compute; reflexivity. Qed.

Lemma List_drop_spec_witness :
  queue q3 [10; 20; 30] h3 /\ 1 <= 1 /\
  triple (queue q3 [10; 20; 30]) (List_drop 1 q3)
    (fun s => hpure (s = mkList None (tail q3)) ⋆ hemp).
Proof. split_and!; [apply queue_q3|lia|]. apply (List_drop_spec 1 q3 [10; 20; 30]). lia. Defined.

Lemma into_iter_take_drop_witness :
  queue q3 [10; 20; 30] h3 /\ 1 <= 1 /\
  triple (queue q3 [10; 20; 30])
    (let* '(ys, it) := drain 1 2 (into_iter q3) in IntoIter_drop 1 it ;; ret ys)
    (fun ys => hpure (ys = take 2 [10; 20; 30]) ⋆ hemp).
Proof. split_and!; [apply queue_q3|lia|]. apply (into_iter_take_drop 1 2 q3 [10; 20; 30]). lia. Defined.
